(** * Scheduler bot: queue, active window, dispatcher, loop and manual trigger

    A shallow embedding of [src/index.py] (an aiogram/FastAPI bot that queues
    the operator's posts and republishes them to a channel), followed by the
    properties of its natural-language specification.

    Conventions of the embedding:
    - [datetime.time] is a record of its four compared fields; its order is
      Python's lexicographic order on the tuple (hour, minute, second,
      microsecond);
    - [asyncio.Queue()] (unbounded) is a list, head first: [put] appends,
      [get] pops the head and waits when the queue is empty;
    - coroutines are computations in a state-and-exception monad over a
      [World] holding the shared queue and the trace of observable effects
      (sleeps, log records, Bot API calls, queue operations); an exception
      keeps the state reached when it was raised, as in Python;
    - the outside world (Bot API outcomes, the wall clock) is an [Env] of
      oracles indexed by the number of calls made so far;
    - Python's true division [/] of two integers returns the binary64 number
      nearest to the quotient (ties to even); a float is a sign, a
      significand and the exponent of its last place, computed in integer
      arithmetic. *)

From Stdlib Require Import ZArith QArith Qabs List Bool Lia Ascii String
  Permutation.
Import ListNotations.
Open Scope Z_scope.

(** ** datetime.time *)

Record time := mk_time {
  hour : Z;
  minute : Z;
  second : Z;
  microsecond : Z
}.

(** The range check of the [time(...)] constructor. *)
Definition valid_time (t : time) : Prop :=
  0 <= hour t < 24 /\ 0 <= minute t < 60 /\
  0 <= second t < 60 /\ 0 <= microsecond t < 1000000.

(** Python compares tuples lexicographically. *)
Fixpoint tuple_cmp (a b : list Z) : comparison :=
  match a, b with
  | [], [] => Eq
  | [], _ :: _ => Lt
  | _ :: _, [] => Gt
  | x :: a', y :: b' =>
      match x ?= y with
      | Eq => tuple_cmp a' b'
      | c => c
      end
  end.

Definition time_fields (t : time) : list Z :=
  [hour t; minute t; second t; microsecond t].

(** [time._cmp]: compares the (hour, minute, second, microsecond) tuples. *)
Definition time_cmp (a b : time) : comparison :=
  tuple_cmp (time_fields a) (time_fields b).

(** [a <= b] on [datetime.time] values. *)
Definition time_le (a b : time) : bool :=
  match time_cmp a b with
  | Gt => false
  | _ => true
  end.

(** The instant of the day, in microseconds since midnight. *)
Definition micros (t : time) : Z :=
  ((hour t * 60 + minute t) * 60 + second t) * 1000000 + microsecond t.


(** ** Python numbers

    A finite [float] is a binary64 number: a sign and a magnitude
    [significand * 2 ^ ulp_exponent] with a significand below [2 ^ 53] and an
    exponent of the last place not below [-1074]. *)

Record binary64 := mk_binary64 {
  negative : bool;
  significand : Z;
  ulp_exponent : Z
}.

Definition binary64_value (f : binary64) : Q :=
  let m := if negative f then - significand f else significand f in
  if 0 <=? ulp_exponent f
  then inject_Z (m * 2 ^ ulp_exponent f)
  else m # Z.to_pos (2 ^ (- ulp_exponent f)).


(** The ratio [a / b] divided by [2 ^ e], as a numerator and a denominator. *)
Definition scaled (a b e : Z) : Z * Z :=
  if 0 <=? e then (a, b * 2 ^ e) else (a * 2 ^ (- e), b).

(** The integer nearest to [n / d] ([d > 0]), a tie going to the even one. *)
Definition round_half_even (n d : Z) : Z :=
  let q := n / d in
  match 2 * (n mod d) ?= d with
  | Lt => q
  | Gt => q + 1
  | Eq => if Z.even q then q else q + 1
  end.

(** The [k] with [2 ^ k <= a / b < 2 ^ (k + 1)], for positive [a] and [b]. *)
Definition floor_log2_ratio (a b : Z) : Z :=
  let k := Z.log2 a - Z.log2 b in
  let (n, d) := scaled a b k in
  if d <=? n then k else k - 1.

(** Significand and exponent of the binary64 number nearest to [a / b], for
    positive [a] and [b]: 53 significant bits, fewer below the smallest
    normal number; a significand rounded up to [2 ^ 53] moves to the next
    exponent. *)
Definition nearest_binary64 (a b : Z) : Z * Z :=
  let e := Z.max (-1074) (floor_log2_ratio a b - 52) in
  let (n, d) := scaled a b e in
  let m := round_half_even n d in
  if m =? 2 ^ 53 then (2 ^ 52, e + 1) else (m, e).

(** [a / b] on two [int]s with [b] not zero: the correctly rounded quotient,
    with the sign of the exact one (also on a zero).  Python raises
    [OverflowError] when the quotient exceeds the largest float, that is when
    the exponent computed here exceeds 971; the fields of a [time] are too
    small for that (see [int_truediv_format]). *)
Definition int_truediv (a b : Z) : binary64 :=
  let neg := xorb (a <? 0) (b <? 0) in
  if a =? 0 then mk_binary64 neg 0 (-1074)
  else
    let (m, e) := nearest_binary64 (Z.abs a) (Z.abs b) in
    mk_binary64 neg m e.

Inductive PyNumber :=
| PyInt (z : Z)
| PyFloat (f : binary64).


(** ** Module-level configuration *)

Record Settings := {
  CHANNEL_ID : string;
  ADMIN_ID : Z;
  START_TIME : time;
  END_TIME : time;
  POSTS_PER_DAY : Z
}.

(** The constants of the source; the channel and the operator come from the
    process environment. *)
Definition source_settings (channel : string) (admin : Z) : Settings :=
  {| CHANNEL_ID := channel;
     ADMIN_ID := admin;
     START_TIME := mk_time 8 0 0 0;
     END_TIME := mk_time 22 0 0 0;
     POSTS_PER_DAY := 10 |}.

(** ** Active-window gate (the two computations of the loop body) *)

Definition start_total_seconds (cfg : Settings) : Z :=
  hour (START_TIME cfg) * 3600 + minute (START_TIME cfg) * 60.

Definition end_total_seconds (cfg : Settings) : Z :=
  hour (END_TIME cfg) * 3600 + minute (END_TIME cfg) * 60.

Definition total_seconds_in_day (cfg : Settings) : Z :=
  end_total_seconds cfg - start_total_seconds cfg.

(** [total_seconds_in_day / POSTS_PER_DAY if POSTS_PER_DAY > 0 else 3600]:
    a float when the division is made, the integer 3600 otherwise. *)
Definition interval (cfg : Settings) : PyNumber :=
  if POSTS_PER_DAY cfg >? 0
  then PyFloat (int_truediv (total_seconds_in_day cfg) (POSTS_PER_DAY cfg))
  else PyInt 3600.

(** [START_TIME <= now_time <= END_TIME] (a chained comparison). *)
Definition isWithinWindow (cfg : Settings) (now_time : time) : bool :=
  time_le (START_TIME cfg) now_time && time_le now_time (END_TIME cfg).

(** ** asyncio.Queue *)

Section Queue.
Context {A : Type}.

Definition Queue := list A.

Definition empty_queue : Queue := [].

Definition put (q : Queue) (x : A) : Queue := q ++ [x].

Definition get_nowait (q : Queue) : option (A * Queue) :=
  match q with
  | [] => None
  | x :: q' => Some (x, q')
  end.

Definition empty (q : Queue) : bool :=
  match q with
  | [] => true
  | _ :: _ => false
  end.

Definition qsize (q : Queue) : nat := List.length q.

(** The dequeue step shared by the loop and the manual trigger:
    [if not post_queue.empty(): post = await post_queue.get()].  On a
    non-empty queue [get] returns without suspending, so the test and the
    removal form one atomic step of the event loop. *)
Definition tryDequeue (q : Queue) : option A * Queue :=
  if negb (empty q)
  then match get_nowait q with
       | Some (x, q') => (Some x, q')
       | None => (None, q)
       end
  else (None, q).

Definition enqueue_all (q : Queue) (xs : list A) : Queue :=
  fold_left put xs q.

(** [n] successive dequeue steps, with what each returned. *)
Fixpoint dequeue_n (n : nat) (q : Queue) : list (option A) * Queue :=
  match n with
  | O => ([], q)
  | S k =>
      let (r, q') := tryDequeue q in
      let (rs, q'') := dequeue_n k q' in
      (r :: rs, q'')
  end.
End Queue.

Arguments Queue : clear implicits.

(** ** Concurrent use of the shared queue

    The event loop runs one coroutine at a time and switches only at an
    [await] that really suspends.  Every access of the source to
    [post_queue] is either a [put] (unbounded, never suspends) or the guarded
    [get] of [tryDequeue], so whatever the interleaving of the scheduler
    task, the manual trigger and the submission handler, the queue sees a
    sequence of these two atomic operations. *)

Inductive Caller := SchedulerLoop | ManualTrigger.

Definition caller_eqb (a b : Caller) : bool :=
  match a, b with
  | SchedulerLoop, SchedulerLoop => true
  | ManualTrigger, ManualTrigger => true
  | _, _ => false
  end.

Inductive QueueOp (A : Type) :=
| OpPut (x : A)
| OpTryDequeue (c : Caller).

Arguments OpPut {A} x.
Arguments OpTryDequeue {A} c.

(** Runs a schedule of queue operations; returns who received what, in the
    order of removal, and the queue left. *)
Fixpoint run_ops {A} (ops : list (QueueOp A)) (q : Queue A)
  : list (Caller * A) * Queue A :=
  match ops with
  | [] => ([], q)
  | OpPut x :: ops' => run_ops ops' (put q x)
  | OpTryDequeue c :: ops' =>
      match tryDequeue q with
      | (Some x, q') =>
          let (got, q'') := run_ops ops' q' in ((c, x) :: got, q'')
      | (None, q') => run_ops ops' q'
      end
  end.

(** The items a schedule enqueues, in order. *)
Definition puts_of {A} (ops : list (QueueOp A)) : list A :=
  flat_map (fun o => match o with OpPut x => [x] | OpTryDequeue _ => [] end) ops.

Definition received_by {A} (c : Caller) (got : list (Caller * A)) : list A :=
  map snd (filter (fun p => caller_eqb (fst p) c) got).

(** ** Posts and inbound messages *)

(** The two shapes of [post_data] built by the submission handler:
    [{"type": "photo", "file_id": .., "caption": ..}] and
    [{"type": "text", "content": ..}]. *)
Inductive PostItem :=
| Photo (photo_file_id : string) (photo_caption : string)
| Text (content : string).

Record PhotoSize := { file_id : string }.

Module User.
Record t := { id : Z }.
End User.

(** The fields of [types.Message] the handler reads; all four are optional
    in aiogram, [from_user] too. *)
Record Message := {
  from_user : option User.t;
  photo : option (list PhotoSize);
  text : option string;
  caption : option string
}.

(** The sender's identifier, when the message has a sender. *)
Definition from_user_id (message : Message) : option Z :=
  option_map User.id (from_user message).


(** Truth value of an optional list: [None] and [[]] are false. *)
Definition truthy_list {A} (l : option (list A)) : bool :=
  match l with
  | Some (_ :: _) => true
  | _ => false
  end.

(** [s or ""] *)
Definition or_empty (s : option string) : string :=
  match s with
  | Some (String a r) => String a r
  | _ => EmptyString
  end.

(** The assignment to [post_data] in [handle_new_post]; [photo[-1]] is the
    last element. *)
Definition post_data_of (message : Message) : option PostItem :=
  match photo message with
  | Some (p :: ps) =>
      Some (Photo (file_id (last ps p)) (or_empty (caption message)))
  | _ =>
      match text message with
      | Some (String a r) => Some (Text (String a r))
      | _ => None
      end
  end.

(** ** Observable effects *)

(** An exception of class [Exception], with its message. *)
Definition PyException := string.
Bind Scope string_scope with PyException.

(** The [AttributeError] of an access to [.id] on [None]. *)
Definition no_attribute_id : PyException :=
  "'NoneType' object has no attribute 'id'".

(** The texts sent back to the sender by [message.answer]. *)
Inductive Reply :=
| ReplyNotAllowed                (* the sender may not submit posts *)
| ReplyQueued (queue_size : nat) (* the post was queued; posts now waiting *)
| ReplyUnsupported.              (* unsupported kind: send text or a photo *)


Inductive LogMsg :=
| PostSentToChannel (channel : string)
| ErrorSendingPost (e : PyException)
| PostSentByScheduler (next_in : PyNumber)
| SchedulerWaiting
| ErrorInSchedulerLoop (e : PyException)
| EndpointPostSent
| EndpointQueueEmpty
| ErrorInEndpoint (e : PyException).

Inductive Event :=
| Sleep (seconds : Z)
| LogInfo (m : LogMsg)
| LogError (m : LogMsg)
| SendPhoto (chat_id : string) (photo_id : string) (photo_caption : string)
| SendMessage (chat_id : string) (msg_text : string)
| Answer (r : Reply)
| QueuePut (x : PostItem)
| QueueGet (x : PostItem).

Definition sleeps (evs : list Event) : list Z :=
  flat_map (fun e => match e with Sleep s => [s] | _ => [] end) evs.

Definition dequeued (evs : list Event) : list PostItem :=
  flat_map (fun e => match e with QueueGet x => [x] | _ => [] end) evs.

Definition enqueued (evs : list Event) : list PostItem :=
  flat_map (fun e => match e with QueuePut x => [x] | _ => [] end) evs.

Definition answers (evs : list Event) : list Reply :=
  flat_map (fun e => match e with Answer r => [r] | _ => [] end) evs.

(** The publish calls made, as the posts they carry. *)
Definition published (evs : list Event) : list PostItem :=
  flat_map (fun e => match e with
                     | SendPhoto _ f c => [Photo f c]
                     | SendMessage _ t => [Text t]
                     | _ => []
                     end) evs.

(** ** The world and the coroutine monad *)

Record World := {
  post_queue : Queue PostItem;
  trace : list Event;
  api_calls : nat;
  clock_reads : nat
}.

(** The outside world: the outcome of the n-th Bot API call ([None]: it
    succeeds) and of the n-th reading of the clock.  The clock is the one
    call of the loop body made outside [send_post_to_channel]'s own [try], so
    letting it raise stands for any error escaping an iteration. *)
Record Env := {
  api_result : nat -> option PyException;
  now_result : nat -> PyException + time
}.

Inductive Result (A : Type) :=
| Returned (a : A)
| Raised (e : PyException)
| Suspended.                 (* waiting on an empty queue *)

Arguments Returned {A} a.
Arguments Raised {A} e.
Arguments Suspended {A}.

Definition M (A : Type) : Type := World -> Result A * World.

Definition ret {A} (a : A) : M A := fun w => (Returned a, w).

Definition raise {A} (e : PyException) : M A := fun w => (Raised e, w).

Definition bind {A B} (m : M A) (k : A -> M B) : M B :=
  fun w =>
    match m w with
    | (Returned a, w') => k a w'
    | (Raised e, w') => (Raised e, w')
    | (Suspended, w') => (Suspended, w')
    end.

(** [try: body  except Exception as e: handler(e)] *)
Definition try_except {A} (body : M A) (handler : PyException -> M A) : M A :=
  fun w =>
    match body w with
    | (Raised e, w') => handler e w'
    | r => r
    end.

Notation "x <- c1 ;; c2" := (bind c1 (fun x => c2))
  (at level 61, c1 at next level, right associativity).
Notation "c1 ;; c2" := (bind c1 (fun _ => c2))
  (at level 61, right associativity).

Definition emit (ev : Event) : M unit :=
  fun w =>
    (Returned tt,
     {| post_queue := post_queue w;
        trace := trace w ++ [ev];
        api_calls := api_calls w;
        clock_reads := clock_reads w |}).

Definition asyncio_sleep (seconds : Z) : M unit := emit (Sleep seconds).
Definition logging_info (m : LogMsg) : M unit := emit (LogInfo m).
Definition logging_error (m : LogMsg) : M unit := emit (LogError m).

(** [await post_queue.put(x)] *)
Definition queue_put (x : PostItem) : M unit :=
  fun w =>
    (Returned tt,
     {| post_queue := put (post_queue w) x;
        trace := trace w ++ [QueuePut x];
        api_calls := api_calls w;
        clock_reads := clock_reads w |}).

(** [await post_queue.get()] *)
Definition queue_get : M PostItem :=
  fun w =>
    match get_nowait (post_queue w) with
    | Some (x, q') =>
        (Returned x,
         {| post_queue := q';
            trace := trace w ++ [QueueGet x];
            api_calls := api_calls w;
            clock_reads := clock_reads w |})
    | None => (Suspended, w)
    end.

Definition queue_empty : M bool := fun w => (Returned (empty (post_queue w)), w).
Definition queue_qsize : M nat := fun w => (Returned (qsize (post_queue w)), w).

(** The answers of the manual trigger: [{"status": .., "queue_size": ..}],
    [{"status": ..}] and the 500 response carrying [str(e)]. *)
Inductive EndpointResponse :=
| StatusAndSize (status : string) (queue_size : nat)
| StatusOnly (status : string)
| Response500 (error : PyException).

(** What is known of the [while True] loop after a number of iterations. *)
Inductive LoopStatus :=
| Polling                        (* about to start the next iteration *)
| Waiting                        (* stuck in [get] on an empty queue *)
| Terminated (e : PyException).  (* an exception left the loop *)

Section Bot.
Variable env : Env.
Variable cfg : Settings.

(** A call to the Bot API: recorded, then answered by the environment. *)
Definition bot_call (ev : Event) : M unit :=
  fun w =>
    (match api_result env (api_calls w) with
     | None => Returned tt
     | Some e => Raised e
     end,
     {| post_queue := post_queue w;
        trace := trace w ++ [ev];
        api_calls := S (api_calls w);
        clock_reads := clock_reads w |}).

Definition bot_send_photo (chat fid cap : string) : M unit :=
  bot_call (SendPhoto chat fid cap).

Definition bot_send_message (chat txt : string) : M unit :=
  bot_call (SendMessage chat txt).

Definition message_answer (r : Reply) : M unit := bot_call (Answer r).

(** [datetime.now().time()] *)
Definition datetime_now : M time :=
  fun w =>
    (match now_result env (clock_reads w) with
     | inl e => Raised e
     | inr t => Returned t
     end,
     {| post_queue := post_queue w;
        trace := trace w;
        api_calls := api_calls w;
        clock_reads := S (clock_reads w) |}).

(** *** The submission handler *)

(** [message.from_user.id] on a message without sender is an attribute
    access on [None]. *)
Definition handle_new_post (message : Message) : M unit :=
  match from_user message with
  | None => raise no_attribute_id
  | Some user =>
      if negb (User.id user =? ADMIN_ID cfg)
      then message_answer ReplyNotAllowed
      else
        match post_data_of message with
        | Some post_data =>
            queue_put post_data ;;
            n <- queue_qsize ;;
            message_answer (ReplyQueued n)
        | None => message_answer ReplyUnsupported
        end
  end.

(** *** The dispatcher *)

Definition send_post_to_channel (post_data : PostItem) : M unit :=
  try_except
    (match post_data with
     | Photo fid cap => bot_send_photo (CHANNEL_ID cfg) fid cap
     | Text txt => bot_send_message (CHANNEL_ID cfg) txt
     end ;;
     logging_info (PostSentToChannel (CHANNEL_ID cfg)))
    (fun e =>
       logging_error (ErrorSendingPost e) ;;
       asyncio_sleep 5 ;;
       queue_put post_data).

(** *** The scheduler loop *)

(** The body of the [try] of one iteration. *)
Definition scheduler_body : M unit :=
  let interval := interval cfg in
  now_time <- datetime_now ;;
  go <- (if isWithinWindow cfg now_time
         then is_empty <- queue_empty ;; ret (negb is_empty)
         else ret false) ;;
  if go : bool
  then
    post <- queue_get ;;
    send_post_to_channel post ;;
    logging_info (PostSentByScheduler interval)
  else
    logging_info SchedulerWaiting ;;
    asyncio_sleep 30.

(** One iteration: the [try] with its loop-level [except Exception]. *)
Definition scheduler_iteration : M unit :=
  try_except scheduler_body
    (fun e =>
       logging_error (ErrorInSchedulerLoop e) ;;
       asyncio_sleep 60).

(** [while True]: the first [n] iterations.  Nothing in the loop leaves
    it, so it ends only if an iteration lets an exception through. *)
Fixpoint scheduler (n : nat) (w : World) : LoopStatus * World :=
  match n with
  | O => (Polling, w)
  | S k =>
      match scheduler_iteration w with
      | (Returned _, w') => scheduler k w'
      | (Raised e, w') => (Terminated e, w')
      | (Suspended, w') => (Waiting, w')
      end
  end.

(** *** The manual trigger *)

Definition run_scheduler_endpoint : M EndpointResponse :=
  try_except
    (is_empty <- queue_empty ;;
     if negb is_empty
     then
       post <- queue_get ;;
       send_post_to_channel post ;;
       logging_info EndpointPostSent ;;
       n <- queue_qsize ;;
       ret (StatusAndSize "Post sent from queue" n)
     else
       logging_info EndpointQueueEmpty ;;
       ret (StatusOnly "Queue is empty"))
    (fun e =>
       logging_error (ErrorInEndpoint e) ;;
       ret (Response500 e)).
End Bot.

(** The Bot API call that publishes a post to the channel. *)
Definition publish_event (cfg : Settings) (post_data : PostItem) : Event :=
  match post_data with
  | Photo fid cap => SendPhoto (CHANNEL_ID cfg) fid cap
  | Text txt => SendMessage (CHANNEL_ID cfg) txt
  end.

(** The events a computation added to the trace. *)
Definition new_events (w w' : World) : list Event :=
  skipn (List.length (trace w)) (trace w').

(** ** Further observers *)

(** The outcome the environment gives to the next Bot API call. *)
Definition api_outcome (env : Env) (w : World) : Result unit :=
  match api_result env (api_calls w) with
  | None => Returned tt
  | Some e => Raised e
  end.

(** The number of deliveries reported as made (the dispatcher's
    [logging.info] after a publish call that returned). *)
Definition sent_count (evs : list Event) : nat :=
  List.length
    (flat_map (fun e => match e with
                        | LogInfo (PostSentToChannel _) => [e]
                        | _ => []
                        end) evs).

(** ** The webhook endpoint *)

(** An update as aiogram routes it: [@dp.message()] receives the updates
    that carry a message; every other kind has no handler here. *)
Inductive Update :=
| MessageUpdate (m : Message)
| OtherUpdate.

(** The body of a request to [/webhook], by what [request.json()] followed
    by [types.Update.model_validate] makes of it. *)
Inductive Request :=
| Malformed (e : PyException)   (* one of the two raises [e] *)
| WellFormed (u : Update).

(** [Response(status_code=.., content=json.dumps({"ok": .., "error": ..}))] *)
Inductive WebhookResponse :=
| Response (status_code : Z) (ok : bool) (error : option PyException).

(** The log records of the web layer. *)
Inductive WebLog :=
| ErrorProcessingWebhook (e : PyException).

(** The bot's world together with the log of the web layer. *)
Record Server := {
  world : World;
  web_log : list WebLog
}.

(** [await dp.feed_update(bot, update)]: runs the registered handler on a
    message update; an exception of the handler comes out of it. *)
Definition feed_update (env : Env) (cfg : Settings) (update : Update) : M unit :=
  match update with
  | MessageUpdate m => handle_new_post env cfg m
  | OtherUpdate => ret tt
  end.

Definition telegram_webhook (env : Env) (cfg : Settings) (request : Request)
    (s : Server) : Result WebhookResponse * Server :=
  let failed (e : PyException) (w : World) :=
    (Returned (Response 500 false (Some e)),
     {| world := w; web_log := web_log s ++ [ErrorProcessingWebhook e] |}) in
  match request with
  | Malformed e => failed e (world s)
  | WellFormed update =>
      match feed_update env cfg update (world s) with
      | (Returned _, w') =>
          (Returned (Response 200 true None),
           {| world := w'; web_log := web_log s |})
      | (Raised e, w') => failed e w'
      | (Suspended, w') => (Suspended, {| world := w'; web_log := web_log s |})
      end
  end.

(** ** Sample data for concrete runs *)

Definition sample_settings : Settings := source_settings "@channel" 42.

(** Every Bot API call succeeds; it is always noon. *)
Definition calm_env : Env :=
  {| api_result := fun _ => None;
     now_result := fun _ => inr (mk_time 12 0 0 0) |}.

(** Every Bot API call times out; it is always noon. *)
Definition failing_env : Env :=
  {| api_result := fun _ => Some "timeout"%string;
     now_result := fun _ => inr (mk_time 12 0 0 0) |}.

(** The first Bot API call fails; the third reading of the clock raises and
    the fifth and later ones fall after the window has closed. *)
Definition rough_env : Env :=
  {| api_result := fun n => match n with
                            | O => Some "timeout"%string
                            | _ => None
                            end;
     now_result := fun n => match n with
                            | 0%nat | 1%nat | 3%nat => inr (mk_time 8 0 0 0)
                            | 2%nat => inl "clock"%string
                            | _ => inr (mk_time 22 0 0 1)
                            end |}.

Definition post_A : PostItem := Text "A".
Definition post_B : PostItem := Photo "file-B" "caption B".

Definition world_of (q : Queue PostItem) : World :=
  {| post_queue := q; trace := []; api_calls := 0; clock_reads := 0 |}.

(** A photo in two sizes with a text and no caption, from the operator. *)
Definition photo_message : Message :=
  {| from_user := Some {| User.id := 42 |};
     photo := Some [ {| file_id := "small" |}; {| file_id := "large" |} ];
     text := Some "ignored"%string;
     caption := None |}.





(** An operator's text message. *)
Definition text_message : Message :=
  {| from_user := Some {| User.id := 42 |}; photo := Some []; text := Some "hello"%string;
     caption := None |}.

(** A text message from somebody else. *)
Definition intruder_message : Message :=
  {| from_user := Some {| User.id := 7 |}; photo := None; text := Some "spam"%string;
     caption := None |}.

(** Every Bot API call succeeds; it is always 23:00, after closing time. *)
Definition night_env : Env :=
  {| api_result := fun _ => None;
     now_result := fun _ => inr (mk_time 23 0 0 0) |}.

(** The first Bot API call fails and the later ones succeed; always noon. *)
Definition hiccup_env : Env :=
  {| api_result := fun n => match n with
                            | O => Some "timeout"%string
                            | _ => None
                            end;
     now_result := fun _ => inr (mk_time 12 0 0 0) |}.

(** A window that would run overnight, from 22:00 to 06:00. *)
Definition overnight_settings : Settings :=
  {| CHANNEL_ID := "@channel"; ADMIN_ID := 42;
     START_TIME := mk_time 22 0 0 0; END_TIME := mk_time 6 0 0 0;
     POSTS_PER_DAY := 10 |}.

Definition server_of (q : Queue PostItem) : Server :=
  {| world := world_of q; web_log := [] |}.

(** * Properties *)

(** ** The queue is first-in first-out *)

Lemma enqueue_all_app {A} (xs : list A) (q : Queue A) :
  enqueue_all q xs = q ++ xs.
Proof.
  unfold enqueue_all. revert q.
  induction xs as [|x xs IH]; intros q; simpl.
  - now rewrite app_nil_r.
  - rewrite IH. unfold put. now rewrite <- app_assoc.
Qed.

Lemma tryDequeue_nil {A} : tryDequeue (@nil A) = (None, []).
Proof. reflexivity. Qed.

Lemma tryDequeue_cons {A} (x : A) (q : Queue A) :
  tryDequeue (x :: q) = (Some x, q).
Proof. reflexivity. Qed.

Lemma dequeue_n_spec {A} (n : nat) (q : Queue A) :
  dequeue_n n q =
  (map Some (firstn n q) ++ repeat None (n - List.length q), skipn n q).
Proof.
  revert q. induction n as [|n IH]; intros q.
  - reflexivity.
  - destruct q as [|x q].
    + cbn [dequeue_n]. rewrite tryDequeue_nil, IH.
      rewrite firstn_nil, skipn_nil. simpl. now rewrite Nat.sub_0_r.
    + cbn [dequeue_n]. rewrite tryDequeue_cons, IH. reflexivity.
Qed.

(** C3. Whatever the sequence of enqueues, successive dequeue steps return
    the items in the order they were enqueued: the first [n] steps return the
    first [n] items (and empty for every step beyond the last item) and leave
    the others; as many steps as items return them all and empty the queue;
    a step on the emptied queue returns empty and leaves it empty. *)
Theorem C3_fifo_order {A} (items : list A) :
  (forall n,
      dequeue_n n (enqueue_all empty_queue items) =
      (map Some (firstn n items) ++ repeat None (n - List.length items),
       skipn n items))
  /\ dequeue_n (List.length items) (enqueue_all empty_queue items) =
     (map Some items, empty_queue)
  /\ (forall k,
         dequeue_n (List.length items + k) (enqueue_all empty_queue items) =
         (map Some items ++ repeat None k, empty_queue))
  /\ tryDequeue (snd (dequeue_n (List.length items)
                        (enqueue_all empty_queue items))) =
     (None, empty_queue).
Proof.
  assert (E : enqueue_all empty_queue items = items)
    by (rewrite enqueue_all_app; reflexivity).
  rewrite E. repeat split.
  - intros n. apply dequeue_n_spec.
  - rewrite dequeue_n_spec, firstn_all, skipn_all, Nat.sub_diag.
    simpl. now rewrite app_nil_r.
  - intros k. rewrite dequeue_n_spec.
    rewrite firstn_all2 by lia. rewrite skipn_all2 by lia.
    now replace (List.length items + k - List.length items)%nat with k by lia.
  - rewrite dequeue_n_spec, skipn_all. reflexivity.
Qed.

(** ** The active window *)

Lemma time_le_micros (a b : time) :
  valid_time a -> valid_time b ->
  (time_le a b = true <-> micros a <= micros b).
Proof.
  intros (Ha1 & Ha2 & Ha3 & Ha4) (Hb1 & Hb2 & Hb3 & Hb4).
  unfold time_le, time_cmp, time_fields, micros. simpl.
  destruct (Z.compare_spec (hour a) (hour b));
    [destruct (Z.compare_spec (minute a) (minute b));
     [destruct (Z.compare_spec (second a) (second b));
      [destruct (Z.compare_spec (microsecond a) (microsecond b))| |]| |]| |];
    split; intros; try reflexivity; try discriminate; try lia.
Qed.

Lemma time_le_refl (a : time) : time_le a a = true.
Proof.
  unfold time_le, time_cmp, time_fields. simpl.
  now rewrite !Z.compare_refl.
Qed.

(** C4. For times of day in range, the window test is true exactly when the
    instant [now] lies between the start and the end of the window, both
    included; and both boundary instants of a window whose start does not
    follow its end are within it. *)
Theorem C4_window_inclusive (cfg : Settings) (now : time) :
  valid_time (START_TIME cfg) -> valid_time (END_TIME cfg) -> valid_time now ->
  (isWithinWindow cfg now = true <->
   micros (START_TIME cfg) <= micros now <= micros (END_TIME cfg))
  /\ (micros (START_TIME cfg) <= micros (END_TIME cfg) ->
      isWithinWindow cfg (START_TIME cfg) = true /\
      isWithinWindow cfg (END_TIME cfg) = true).
Proof.
  intros Hs He Hn. split.
  - unfold isWithinWindow. rewrite andb_true_iff.
    rewrite (time_le_micros _ _ Hs Hn), (time_le_micros _ _ Hn He).
    reflexivity.
  - intros Hse. unfold isWithinWindow.
    rewrite !time_le_refl, andb_true_r. simpl.
    split; apply time_le_micros; assumption.
Qed.

(** ** The advisory interval *)


(** *** Integer true division is correctly rounded *)


















(** ** The dispatcher *)

Ltac step_monad :=
  unfold try_except, bind, ret, logging_info, logging_error, asyncio_sleep,
    emit, queue_put, queue_get, queue_empty, queue_qsize, bot_send_photo,
    bot_send_message, message_answer, bot_call, datetime_now;
  cbn [post_queue trace api_calls clock_reads fst snd empty negb get_nowait];
  unfold put.

Ltac tidy_trace := rewrite <- ?app_assoc; cbn [app].

Lemma new_events_app (w w' : World) (evs : list Event) :
  trace w' = trace w ++ evs -> new_events w w' = evs.
Proof.
  intros H. unfold new_events. rewrite H.
  rewrite skipn_app, skipn_all, Nat.sub_diag. reflexivity.
Qed.

Lemma send_post_succeeds env cfg (post_data : PostItem) (w : World) :
  api_result env (api_calls w) = None ->
  send_post_to_channel env cfg post_data w =
  (Returned tt,
   {| post_queue := post_queue w;
      trace := trace w ++ [publish_event cfg post_data;
                           LogInfo (PostSentToChannel (CHANNEL_ID cfg))];
      api_calls := S (api_calls w);
      clock_reads := clock_reads w |}).
Proof.
  intros H. unfold send_post_to_channel.
  destruct post_data; step_monad; rewrite H; step_monad; tidy_trace;
    reflexivity.
Qed.

Lemma send_post_fails env cfg (post_data : PostItem) (w : World) e :
  api_result env (api_calls w) = Some e ->
  send_post_to_channel env cfg post_data w =
  (Returned tt,
   {| post_queue := post_queue w ++ [post_data];
      trace := trace w ++ [publish_event cfg post_data;
                           LogError (ErrorSendingPost e);
                           Sleep 5;
                           QueuePut post_data];
      api_calls := S (api_calls w);
      clock_reads := clock_reads w |}).
Proof.
  intros H. unfold send_post_to_channel.
  destruct post_data; step_monad; rewrite H; step_monad; tidy_trace;
    reflexivity.
Qed.

Lemma queue_get_cons (w : World) (x : PostItem) (rest : Queue PostItem) :
  post_queue w = x :: rest ->
  queue_get w =
  (Returned x,
   {| post_queue := rest;
      trace := trace w ++ [QueueGet x];
      api_calls := api_calls w;
      clock_reads := clock_reads w |}).
Proof. intros H. unfold queue_get. rewrite H. reflexivity. Qed.

(** C1. When the publish call of [send_post_to_channel] fails with an
    exception, the dispatcher returns normally (the error does not reach its
    caller); it has logged the error, slept 5 and then put the item back at
    the tail of the queue, in that order, and slept for nothing else.  So an
    item taken from the head of a queue and failing delivery ends behind the
    items that followed it: from [item; b] the queue becomes [b; item]. *)
Theorem C1_failed_delivery_requeued_at_tail
    env cfg (item : PostItem) (e : PyException) (w : World) :
  api_result env (api_calls w) = Some e ->
  let w' := snd (send_post_to_channel env cfg item w) in
  fst (send_post_to_channel env cfg item w) = Returned tt
  /\ post_queue w' = post_queue w ++ [item]
  /\ trace w' = trace w ++ [publish_event cfg item;
                            LogError (ErrorSendingPost e);
                            Sleep 5;
                            QueuePut item]
  /\ sleeps (new_events w w') = [5]
  /\ (forall rest, post_queue w = item :: rest ->
        post_queue (snd ((post <- queue_get ;;
                          send_post_to_channel env cfg post) w)) =
        rest ++ [item])
  /\ (forall b, post_queue w = [item; b] ->
        post_queue (snd ((post <- queue_get ;;
                          send_post_to_channel env cfg post) w)) =
        [b; item]).
Proof.
  intros H w'. subst w'.
  assert (G : forall rest, post_queue w = item :: rest ->
     post_queue (snd ((post <- queue_get ;;
                       send_post_to_channel env cfg post) w)) =
     rest ++ [item]).
  { intros rest Hq. unfold bind. rewrite (queue_get_cons w item rest Hq).
    erewrite send_post_fails by exact H. reflexivity. }
  rewrite (send_post_fails env cfg item w e H). cbn [fst snd post_queue trace].
  repeat split; try assumption.
  - erewrite new_events_app by reflexivity. destruct item; reflexivity.
  - intros b Hq. apply (G [b] Hq).
Qed.

(** ** The scheduler loop *)

Section SchedulerIteration.
Variable env : Env.
Variable cfg : Settings.
Variable w : World.

Lemma iteration_clock_error e :
  now_result env (clock_reads w) = inl e ->
  scheduler_iteration env cfg w =
  (Returned tt,
   {| post_queue := post_queue w;
      trace := trace w ++ [LogError (ErrorInSchedulerLoop e); Sleep 60];
      api_calls := api_calls w;
      clock_reads := S (clock_reads w) |}).
Proof.
  intros H. unfold scheduler_iteration, scheduler_body. step_monad.
  rewrite H. step_monad. tidy_trace. reflexivity.
Qed.

Lemma iteration_idle now :
  now_result env (clock_reads w) = inr now ->
  isWithinWindow cfg now && negb (empty (post_queue w)) = false ->
  scheduler_iteration env cfg w =
  (Returned tt,
   {| post_queue := post_queue w;
      trace := trace w ++ [LogInfo SchedulerWaiting; Sleep 30];
      api_calls := api_calls w;
      clock_reads := S (clock_reads w) |}).
Proof.
  intros H Hgo. unfold scheduler_iteration, scheduler_body. step_monad.
  rewrite H. destruct (isWithinWindow cfg now); step_monad.
  - simpl in Hgo. rewrite Hgo. step_monad. tidy_trace. reflexivity.
  - tidy_trace. reflexivity.
Qed.

Lemma iteration_dispatch_ok now item rest :
  now_result env (clock_reads w) = inr now ->
  isWithinWindow cfg now = true ->
  post_queue w = item :: rest ->
  api_result env (api_calls w) = None ->
  scheduler_iteration env cfg w =
  (Returned tt,
   {| post_queue := rest;
      trace := trace w ++ [QueueGet item;
                           publish_event cfg item;
                           LogInfo (PostSentToChannel (CHANNEL_ID cfg));
                           LogInfo (PostSentByScheduler (interval cfg))];
      api_calls := S (api_calls w);
      clock_reads := S (clock_reads w) |}).
Proof.
  intros H Hin Hq Hapi. unfold scheduler_iteration, scheduler_body.
  step_monad. rewrite H, Hin. step_monad. rewrite Hq. step_monad.
  rewrite send_post_succeeds by exact Hapi.
  step_monad. tidy_trace. reflexivity.
Qed.

Lemma iteration_dispatch_fail now item rest e :
  now_result env (clock_reads w) = inr now ->
  isWithinWindow cfg now = true ->
  post_queue w = item :: rest ->
  api_result env (api_calls w) = Some e ->
  scheduler_iteration env cfg w =
  (Returned tt,
   {| post_queue := rest ++ [item];
      trace := trace w ++ [QueueGet item;
                           publish_event cfg item;
                           LogError (ErrorSendingPost e);
                           Sleep 5;
                           QueuePut item;
                           LogInfo (PostSentByScheduler (interval cfg))];
      api_calls := S (api_calls w);
      clock_reads := S (clock_reads w) |}).
Proof.
  intros H Hin Hq Hapi. unfold scheduler_iteration, scheduler_body.
  step_monad. rewrite H, Hin. step_monad. rewrite Hq. step_monad.
  rewrite send_post_fails with (e := e) by exact Hapi.
  step_monad. tidy_trace. reflexivity.
Qed.
End SchedulerIteration.

Lemma published_publish_event cfg item : published [publish_event cfg item] = [item].
Proof. destruct item; reflexivity. Qed.

Lemma scheduler_iteration_returns env cfg w :
  fst (scheduler_iteration env cfg w) = Returned tt
  /\ clock_reads (snd (scheduler_iteration env cfg w)) = S (clock_reads w).
Proof.
  destruct (now_result env (clock_reads w)) as [e|now] eqn:Hnow.
  - rewrite (iteration_clock_error env cfg w e Hnow). now split.
  - destruct (isWithinWindow cfg now && negb (empty (post_queue w))) eqn:Hgo.
    + apply andb_true_iff in Hgo. destruct Hgo as [Hin Hne].
      destruct (post_queue w) as [|item rest] eqn:Hq; [discriminate|].
      destruct (api_result env (api_calls w)) as [e|] eqn:Hapi.
      * rewrite (iteration_dispatch_fail env cfg w now item rest e); auto.
      * rewrite (iteration_dispatch_ok env cfg w now item rest); auto.
    + rewrite (iteration_idle env cfg w now Hnow Hgo). now split.
Qed.

Lemma scheduler_unroll env cfg (n : nat) (w : World) :
  scheduler env cfg (S n) w =
  scheduler env cfg n (snd (scheduler_iteration env cfg w)).
Proof.
  cbn [scheduler].
  destruct (scheduler_iteration_returns env cfg w) as [Hr _].
  destruct (scheduler_iteration env cfg w) as [r w1].
  cbn [fst snd] in *. subst r. reflexivity.
Qed.

Lemma scheduler_keeps_polling env cfg (n : nat) (w : World) :
  fst (scheduler env cfg n w) = Polling
  /\ clock_reads (snd (scheduler env cfg n w)) = (clock_reads w + n)%nat.
Proof.
  revert w. induction n as [|n IH]; intros w.
  - simpl. split; [reflexivity | lia].
  - cbn [scheduler].
    destruct (scheduler_iteration_returns env cfg w) as [Hr Hc].
    destruct (scheduler_iteration env cfg w) as [r w1].
    cbn [fst snd] in Hr, Hc. subst r.
    destruct (IH w1) as [IH1 IH2]. split; [exact IH1 | lia].
Qed.

(** C2. One iteration of the scheduler loop always completes normally.  It
    takes at most one item from the queue and publishes exactly what it took.
    It takes the head item and hands it to the dispatcher exactly when the
    time read is within the window and the queue is not empty, and then
    sleeps only for the dispatcher's own backoff (nothing on success, 5 on
    failure); otherwise it takes nothing and sleeps 30; when an error escapes
    the body, it is caught and logged, nothing is taken and the loop sleeps
    60.  The loop runs these iterations one after the other, each from the
    state the one before it left: it starts polling, and [S n] iterations
    are one iteration followed by [n] more.  Hence after any number of
    iterations the loop is still polling, having run that many
    iterations. *)
Theorem C2_scheduler_loop env cfg (w : World) :
  let w' := snd (scheduler_iteration env cfg w) in
  let evs := new_events w w' in
  fst (scheduler_iteration env cfg w) = Returned tt
  /\ trace w' = trace w ++ evs
  /\ (List.length (dequeued evs) <= 1)%nat
  /\ published evs = dequeued evs
  /\ match now_result env (clock_reads w) with
     | inr now =>
         if isWithinWindow cfg now && negb (empty (post_queue w))
         then exists item rest,
             post_queue w = item :: rest
             /\ dequeued evs = [item]
             /\ match api_result env (api_calls w) with
                | None => sleeps evs = [] /\ post_queue w' = rest
                | Some _ => sleeps evs = [5] /\ post_queue w' = rest ++ [item]
                end
         else dequeued evs = []
              /\ sleeps evs = [30]
              /\ post_queue w' = post_queue w
     | inl e =>
         dequeued evs = []
         /\ sleeps evs = [60]
         /\ post_queue w' = post_queue w
         /\ In (LogError (ErrorInSchedulerLoop e)) evs
     end
  /\ (forall n w0,
         scheduler env cfg 0 w0 = (Polling, w0)
         /\ scheduler env cfg (S n) w0 =
            scheduler env cfg n (snd (scheduler_iteration env cfg w0))
         /\ fst (scheduler env cfg n w0) = Polling
         /\ clock_reads (snd (scheduler env cfg n w0)) =
            (clock_reads w0 + n)%nat).
Proof.
  intros w' evs. subst evs w'.
  split; [apply scheduler_iteration_returns|].
  assert (L : forall n w0,
             scheduler env cfg 0 w0 = (Polling, w0)
             /\ scheduler env cfg (S n) w0 =
                scheduler env cfg n (snd (scheduler_iteration env cfg w0))
             /\ fst (scheduler env cfg n w0) = Polling
             /\ clock_reads (snd (scheduler env cfg n w0)) =
                (clock_reads w0 + n)%nat).
  { intros n w0. split; [reflexivity|].
    split; [apply scheduler_unroll|]. apply scheduler_keeps_polling. }
  destruct (now_result env (clock_reads w)) as [e|now] eqn:Hnow.
  - rewrite (iteration_clock_error env cfg w e Hnow). cbn [snd trace post_queue].
    erewrite new_events_app by reflexivity.
    cbn. repeat split; auto; apply L.
  - destruct (isWithinWindow cfg now && negb (empty (post_queue w))) eqn:Hgo.
    + apply andb_true_iff in Hgo. destruct Hgo as [Hin Hne].
      destruct (post_queue w) as [|item rest] eqn:Hq; [discriminate|].
      destruct (api_result env (api_calls w)) as [e|] eqn:Hapi.
      * rewrite (iteration_dispatch_fail env cfg w now item rest e) by auto.
        cbn [snd trace post_queue].
        erewrite new_events_app by reflexivity.
        repeat split; auto; try apply L.
        -- destruct item; cbn; lia.
        -- destruct item; reflexivity.
        -- exists item, rest. destruct item; repeat split; reflexivity.
      * rewrite (iteration_dispatch_ok env cfg w now item rest) by auto.
        cbn [snd trace post_queue].
        erewrite new_events_app by reflexivity.
        repeat split; auto; try apply L.
        -- destruct item; cbn; lia.
        -- destruct item; reflexivity.
        -- exists item, rest. destruct item; repeat split; reflexivity.
    + rewrite (iteration_idle env cfg w now Hnow Hgo).
      cbn [snd trace post_queue].
      erewrite new_events_app by reflexivity.
      cbn. repeat split; auto; apply L.
Qed.

(** ** The manual trigger *)

Section ManualTrigger.
Variable env : Env.
Variable cfg : Settings.
Variable w : World.

Lemma endpoint_on_empty :
  post_queue w = [] ->
  run_scheduler_endpoint env cfg w =
  (Returned (StatusOnly "Queue is empty"),
   {| post_queue := [];
      trace := trace w ++ [LogInfo EndpointQueueEmpty];
      api_calls := api_calls w;
      clock_reads := clock_reads w |}).
Proof.
  intros Hq. unfold run_scheduler_endpoint. step_monad.
  rewrite Hq. step_monad. rewrite Hq. reflexivity.
Qed.

Lemma endpoint_delivery_ok item rest :
  post_queue w = item :: rest ->
  api_result env (api_calls w) = None ->
  run_scheduler_endpoint env cfg w =
  (Returned (StatusAndSize "Post sent from queue" (List.length rest)),
   {| post_queue := rest;
      trace := trace w ++ [QueueGet item;
                           publish_event cfg item;
                           LogInfo (PostSentToChannel (CHANNEL_ID cfg));
                           LogInfo EndpointPostSent];
      api_calls := S (api_calls w);
      clock_reads := clock_reads w |}).
Proof.
  intros Hq Hapi. unfold run_scheduler_endpoint. step_monad.
  rewrite Hq. step_monad. rewrite Hq. step_monad.
  rewrite send_post_succeeds by exact Hapi.
  step_monad. tidy_trace. reflexivity.
Qed.

Lemma endpoint_delivery_fails item rest e :
  post_queue w = item :: rest ->
  api_result env (api_calls w) = Some e ->
  run_scheduler_endpoint env cfg w =
  (Returned (StatusAndSize "Post sent from queue"
               (List.length (rest ++ [item]))),
   {| post_queue := rest ++ [item];
      trace := trace w ++ [QueueGet item;
                           publish_event cfg item;
                           LogError (ErrorSendingPost e);
                           Sleep 5;
                           QueuePut item;
                           LogInfo EndpointPostSent];
      api_calls := S (api_calls w);
      clock_reads := clock_reads w |}).
Proof.
  intros Hq Hapi. unfold run_scheduler_endpoint. step_monad.
  rewrite Hq. step_monad. rewrite Hq. step_monad.
  rewrite send_post_fails with (e := e) by exact Hapi.
  step_monad. tidy_trace. reflexivity.
Qed.
End ManualTrigger.

(** C6. The manual trigger never reads the clock and its outcome is the same
    whatever the clock and the configured window.  On an empty queue it takes
    and publishes nothing, leaves the queue empty and answers "Queue is
    empty".  On a non-empty queue it takes exactly the head item and
    publishes exactly that item; when the publish call succeeds it answers
    "Post sent from queue" with a queue size one less than before the call,
    which is the size of the queue it leaves. *)
Theorem C6_manual_trigger env cfg (w : World) :
  let w' := snd (run_scheduler_endpoint env cfg w) in
  let evs := new_events w w' in
  (clock_reads w' = clock_reads w
   /\ forall clock adm st en ppd,
       run_scheduler_endpoint
         {| api_result := api_result env; now_result := clock |}
         {| CHANNEL_ID := CHANNEL_ID cfg; ADMIN_ID := adm;
            START_TIME := st; END_TIME := en; POSTS_PER_DAY := ppd |} w =
       run_scheduler_endpoint env cfg w)
  /\ (post_queue w = [] ->
      fst (run_scheduler_endpoint env cfg w) =
        Returned (StatusOnly "Queue is empty")
      /\ post_queue w' = post_queue w
      /\ dequeued evs = [] /\ published evs = [] /\ enqueued evs = [])
  /\ (forall item rest, post_queue w = item :: rest ->
      dequeued evs = [item]
      /\ published evs = [item]
      /\ (api_result env (api_calls w) = None ->
          fst (run_scheduler_endpoint env cfg w) =
            Returned (StatusAndSize "Post sent from queue"
                        (qsize (post_queue w) - 1))
          /\ post_queue w' = rest
          /\ qsize (post_queue w') = (qsize (post_queue w) - 1)%nat)).
Proof.
  intros w' evs. subst evs w'. split; [split|split].
  - destruct (post_queue w) as [|item rest] eqn:Hq.
    + now rewrite (endpoint_on_empty env cfg w Hq).
    + destruct (api_result env (api_calls w)) as [e|] eqn:Hapi.
      * now rewrite (endpoint_delivery_fails env cfg w item rest e Hq Hapi).
      * now rewrite (endpoint_delivery_ok env cfg w item rest Hq Hapi).
  - reflexivity.
  - intros Hq. rewrite (endpoint_on_empty env cfg w Hq).
    cbn [fst snd post_queue]. erewrite new_events_app by reflexivity.
    rewrite Hq. repeat split.
  - intros item rest Hq.
    destruct (api_result env (api_calls w)) as [e|] eqn:Hapi.
    + rewrite (endpoint_delivery_fails env cfg w item rest e Hq Hapi).
      cbn [fst snd post_queue]. erewrite new_events_app by reflexivity.
      destruct item; repeat split; discriminate.
    + rewrite (endpoint_delivery_ok env cfg w item rest Hq Hapi).
      cbn [fst snd post_queue]. erewrite new_events_app by reflexivity.
      rewrite Hq. unfold qsize. cbn [List.length].
      replace (S (List.length rest) - 1)%nat with (List.length rest) by lia.
      destruct item; repeat split; reflexivity.
Qed.

(** C9. When the manual trigger takes an item whose publish call fails, it
    still answers "Post sent from queue", and the size it reports is the size
    the queue had before the item was taken: the item was put back at the
    tail, after the backoff, before the size was read.  Nothing of the
    failure shows in the answer: it is the answer a successful delivery from
    a queue one item longer would give. *)
Theorem C9_manual_trigger_hides_failure
    env cfg (w : World) (item : PostItem) (rest : Queue PostItem)
    (e : PyException) :
  post_queue w = item :: rest ->
  api_result env (api_calls w) = Some e ->
  let w' := snd (run_scheduler_endpoint env cfg w) in
  fst (run_scheduler_endpoint env cfg w) =
    Returned (StatusAndSize "Post sent from queue" (qsize (post_queue w)))
  /\ post_queue w' = rest ++ [item]
  /\ qsize (post_queue w') = qsize (post_queue w)
  /\ new_events w w' = [QueueGet item;
                        publish_event cfg item;
                        LogError (ErrorSendingPost e);
                        Sleep 5;
                        QueuePut item;
                        LogInfo EndpointPostSent].
Proof.
  intros Hq Hapi w'. subst w'.
  rewrite (endpoint_delivery_fails env cfg w item rest e Hq Hapi).
  cbn [fst snd post_queue]. erewrite new_events_app by reflexivity.
  rewrite Hq. unfold qsize. rewrite length_app. cbn [List.length].
  replace (List.length rest + 1)%nat with (S (List.length rest)) by lia.
  repeat split.
Qed.

(** ** The submission handler *)

Lemma or_empty_spec (s : option string) :
  or_empty s = match s with Some c => c | None => EmptyString end.
Proof. destruct s as [[|a r]|]; reflexivity. Qed.


Lemma post_data_of_photo (m : Message) (ps : list PhotoSize) (p : PhotoSize) :
  photo m = Some (ps ++ [p]) ->
  post_data_of m = Some (Photo (file_id p) (or_empty (caption m))).
Proof.
  intros H. unfold post_data_of. rewrite H.
  destruct ps as [|p0 ps]; cbn [app].
  - reflexivity.
  - now rewrite last_last.
Qed.

Lemma from_user_id_Some (m : Message) (uid : Z) :
  from_user_id m = Some uid ->
  exists user, from_user m = Some user /\ User.id user = uid.
Proof.
  unfold from_user_id. destruct (from_user m) as [user|]; [|discriminate].
  intros H. injection H as H. now exists user.
Qed.

Lemma new_events_self (w : World) : new_events w w = [].
Proof. apply new_events_app. now rewrite app_nil_r. Qed.



(** C10. For a message from the operator whose photo list is not empty, the
    handler appends to the queue a photo post, whatever the text of the
    message: its file is that of the last photo size and its caption is the
    caption of the message, or the empty string when the message has none.
    The handler then answers with the new queue size. *)
Theorem C10_photo_takes_precedence
    env cfg (m : Message) (w : World) (ps : list PhotoSize) (p : PhotoSize) :
  from_user_id m = Some (ADMIN_ID cfg) ->
  photo m = Some (ps ++ [p]) ->
  let w' := snd (handle_new_post env cfg m w) in
  let cap := match caption m with Some c => c | None => EmptyString end in
  post_queue w' = post_queue w ++ [Photo (file_id p) cap]
  /\ new_events w w' =
     [QueuePut (Photo (file_id p) cap);
      Answer (ReplyQueued (S (qsize (post_queue w))))].
Proof.
  intros Hadm Hph w' cap. subst w' cap. unfold handle_new_post.
  destruct (from_user_id_Some m _ Hadm) as (user & -> & ->).
  rewrite Z.eqb_refl, (post_data_of_photo m ps p Hph), or_empty_spec.
  cbn [negb]. step_monad.
  erewrite new_events_app by (tidy_trace; reflexivity).
  unfold qsize. rewrite length_app. cbn [List.length].
  replace (List.length (post_queue w) + 1)%nat
    with (S (List.length (post_queue w))) by lia.
  split; reflexivity.
Qed.

(** ** Exclusive removal under interleaving *)

Lemma run_ops_conserves {A} (ops : list (QueueOp A)) (q : Queue A) :
  map snd (fst (run_ops ops q)) ++ snd (run_ops ops q) = q ++ puts_of ops.
Proof.
  revert q. induction ops as [|[x|c] ops IH]; intros q.
  - simpl. now rewrite app_nil_r.
  - cbn [run_ops puts_of flat_map]. rewrite IH. unfold put.
    now rewrite <- app_assoc.
  - cbn [run_ops puts_of flat_map app]. destruct q as [|y q].
    + rewrite tryDequeue_nil. apply IH.
    + rewrite tryDequeue_cons. specialize (IH q).
      destruct (run_ops ops q) as [got q'']. cbn [fst snd map app] in *.
      now rewrite IH.
Qed.

Lemma received_split {A} (got : list (Caller * A)) :
  Permutation (received_by SchedulerLoop got ++ received_by ManualTrigger got)
              (map snd got).
Proof.
  unfold received_by. induction got as [|[c x] got IH].
  - constructor.
  - cbn [filter map fst snd]. destruct c; cbn [caller_eqb map app].
    + now constructor.
    + rewrite <- Permutation_middle. now constructor.
Qed.

Lemma NoDup_app_apart {A} (l1 l2 : list A) :
  NoDup (l1 ++ l2) -> forall a, In a l1 -> ~ In a l2.
Proof.
  induction l1 as [|x l1 IH]; intros H a Hin; [destruct Hin|].
  cbn [app] in H. inversion H as [|? ? Hx Hrest]; subst.
  destruct Hin as [->|Hin].
  - intros Ha. apply Hx. apply in_or_app. now right.
  - now apply IH.
Qed.

Lemma endpoint_dequeue_step env cfg (w : World) :
  dequeued (new_events w (snd (run_scheduler_endpoint env cfg w))) =
  match fst (tryDequeue (post_queue w)) with
  | Some x => [x]
  | None => []
  end.
Proof.
  destruct (post_queue w) as [|item rest] eqn:Hq.
  - rewrite (endpoint_on_empty env cfg w Hq). cbn [snd].
    erewrite new_events_app by reflexivity. reflexivity.
  - rewrite tryDequeue_cons. cbn [fst].
    destruct (api_result env (api_calls w)) as [e|] eqn:Hapi.
    + rewrite (endpoint_delivery_fails env cfg w item rest e Hq Hapi).
      cbn [snd]. erewrite new_events_app by reflexivity.
      destruct item; reflexivity.
    + rewrite (endpoint_delivery_ok env cfg w item rest Hq Hapi).
      cbn [snd]. erewrite new_events_app by reflexivity.
      destruct item; reflexivity.
Qed.

Lemma scheduler_dequeue_step env cfg (w : World) :
  let evs := new_events w (snd (scheduler_iteration env cfg w)) in
  dequeued evs = [] \/
  exists x, fst (tryDequeue (post_queue w)) = Some x /\ dequeued evs = [x].
Proof.
  intros evs.
  destruct (now_result env (clock_reads w)) as [e|now] eqn:Hnow.
  - left. subst evs. rewrite (iteration_clock_error env cfg w e Hnow).
    cbn [snd]. erewrite new_events_app by reflexivity. reflexivity.
  - destruct (isWithinWindow cfg now && negb (empty (post_queue w))) eqn:Hgo.
    + apply andb_true_iff in Hgo. destruct Hgo as [Hin Hne].
      destruct (post_queue w) as [|item rest] eqn:Hq; [discriminate|].
      right. exists item. rewrite tryDequeue_cons. split; [reflexivity|].
      subst evs.
      destruct (api_result env (api_calls w)) as [e|] eqn:Hapi.
      * rewrite (iteration_dispatch_fail env cfg w now item rest e) by auto.
        cbn [snd]. erewrite new_events_app by reflexivity.
        destruct item; reflexivity.
      * rewrite (iteration_dispatch_ok env cfg w now item rest) by auto.
        cbn [snd]. erewrite new_events_app by reflexivity.
        destruct item; reflexivity.
    + left. subst evs. rewrite (iteration_idle env cfg w now Hnow Hgo).
      cbn [snd]. erewrite new_events_app by reflexivity. reflexivity.
Qed.

(** C8. Take any interleaving of enqueues and of dequeue steps by the
    scheduler loop and by the manual trigger on the shared queue (both
    remove items only by the guarded dequeue step).  The items handed out,
    in order, followed by the items left, are exactly the initial items
    followed by the enqueued ones: every queue entry is either still queued
    or was received once, by one caller.  When the entries are pairwise
    distinct, no item is handed out twice and none is received by both
    callers. *)
Theorem C8_exclusive_dequeue {A} (ops : list (QueueOp A)) (q : Queue A) :
  let got := fst (run_ops ops q) in
  let rest := snd (run_ops ops q) in
  map snd got ++ rest = q ++ puts_of ops
  /\ Permutation
       (received_by SchedulerLoop got ++ received_by ManualTrigger got ++ rest)
       (q ++ puts_of ops)
  /\ (NoDup (q ++ puts_of ops) ->
      NoDup (map snd got)
      /\ forall x, In x (received_by SchedulerLoop got) ->
                   ~ In x (received_by ManualTrigger got))
  /\ (forall env cfg (w : World),
         dequeued (new_events w (snd (run_scheduler_endpoint env cfg w))) =
         match fst (tryDequeue (post_queue w)) with
         | Some x => [x]
         | None => []
         end)
  /\ (forall env cfg (w : World),
         let evs := new_events w (snd (scheduler_iteration env cfg w)) in
         dequeued evs = [] \/
         exists x, fst (tryDequeue (post_queue w)) = Some x
                   /\ dequeued evs = [x]).
Proof.
  intros got rest.
  pose proof (run_ops_conserves ops q) as Hc. fold got rest in Hc.
  split; [exact Hc|]. split; [|split; [|split]].
  - rewrite <- Hc, app_assoc.
    apply Permutation_app_tail, received_split.
  - intros Hnd. rewrite <- Hc in Hnd.
    apply NoDup_app_remove_r in Hnd.
    split; [exact Hnd|].
    apply NoDup_app_apart.
    apply (Permutation_NoDup (Permutation_sym (received_split got)) Hnd).
  - apply endpoint_dequeue_step.
  - apply scheduler_dequeue_step.
Qed.

(** ** Concrete runs *)

Example scheduler_six_iterations :
  scheduler rough_env sample_settings 6 (world_of [post_A; post_B]) =
  (Polling,
   {| post_queue := [];
      trace :=
        [QueueGet post_A; SendMessage "@channel" "A";
         LogError (ErrorSendingPost "timeout"); Sleep 5; QueuePut post_A;
         LogInfo (PostSentByScheduler (interval sample_settings));
         QueueGet post_B; SendPhoto "@channel" "file-B" "caption B";
         LogInfo (PostSentToChannel "@channel");
         LogInfo (PostSentByScheduler (interval sample_settings));
         LogError (ErrorInSchedulerLoop "clock"); Sleep 60;
         QueueGet post_A; SendMessage "@channel" "A";
         LogInfo (PostSentToChannel "@channel");
         LogInfo (PostSentByScheduler (interval sample_settings));
         LogInfo SchedulerWaiting; Sleep 30;
         LogInfo SchedulerWaiting; Sleep 30];
      api_calls := 3;
      clock_reads := 6 |}).
Proof. reflexivity. Qed.

Example window_boundaries :
  map (isWithinWindow sample_settings)
      [mk_time 7 59 59 999999; mk_time 8 0 0 0; mk_time 22 0 0 0;
       mk_time 22 0 0 1] =
  [false; true; true; false].
Proof. reflexivity. Qed.

Example trigger_on_two_items :
  fst (run_scheduler_endpoint calm_env sample_settings
         (world_of [post_A; post_B])) =
    Returned (StatusAndSize "Post sent from queue" 1)
  /\ fst (run_scheduler_endpoint failing_env sample_settings
            (world_of [post_A; post_B])) =
     Returned (StatusAndSize "Post sent from queue" 2).
Proof. split; reflexivity. Qed.

(** Quotients as CPython prints them: [50400 / 11] is
    [4581.818181818182], whose value is 2518881183632291 / 2^39;
    [50400 / 49] is [1028.5714285714287]; [50400 / 10] is [5040.0];
    [1 / 3] is [0.3333333333333333]; [-50400 / 7] is [-7200.0]; a quotient
    below half the smallest float is [0.0], and [3 / 2 ** 1075], one and a
    half times the smallest float, is twice the smallest float. *)
Example true_division_values :
  int_truediv 50400 11 = mk_binary64 false 5037762367264582 (-40)
  /\ (binary64_value (int_truediv 50400 11) ==
      2518881183632291 # 549755813888)%Q
  /\ (binary64_value (int_truediv 50400 49) ==
      4523704982849829 # 4398046511104)%Q
  /\ (binary64_value (int_truediv 50400 10) == 5040)%Q
  /\ (binary64_value (int_truediv 1 3) ==
      6004799503160661 # 18014398509481984)%Q
  /\ (binary64_value (int_truediv (-50400) 7) == -7200)%Q
  /\ int_truediv 1 (2 ^ 1075) = mk_binary64 false 0 (-1074)
  /\ int_truediv 3 (2 ^ 1075) = mk_binary64 false 2 (-1074).
Proof. repeat split; vm_compute; reflexivity. Qed.

(** ** The theorems at concrete inputs *)

Lemma C1_failed_delivery_witness :
  api_result failing_env (api_calls (world_of [post_B])) = Some "timeout"%string
  /\ post_queue (snd (send_post_to_channel failing_env sample_settings post_A
                        (world_of [post_B]))) = [post_B; post_A].
Proof.
  split; [reflexivity|].
  exact (proj1 (proj2 (C1_failed_delivery_requeued_at_tail
                         failing_env sample_settings post_A "timeout"
                         (world_of [post_B]) eq_refl))).
Defined.

Lemma C4_window_witness :
  valid_time (START_TIME sample_settings)
  /\ valid_time (END_TIME sample_settings)
  /\ valid_time (mk_time 22 0 0 0)
  /\ (isWithinWindow sample_settings (mk_time 22 0 0 0) = true <->
      micros (START_TIME sample_settings) <= micros (mk_time 22 0 0 0)
        <= micros (END_TIME sample_settings)).
Proof.
  assert (V : forall h m, 0 <= h < 24 -> 0 <= m < 60 ->
                          valid_time (mk_time h m 0 0)).
  { intros h m Hh Hm. unfold valid_time. cbn. lia. }
  assert (V8 : valid_time (mk_time 8 0 0 0)) by (apply V; lia).
  assert (V22 : valid_time (mk_time 22 0 0 0)) by (apply V; lia).
  split; [exact V8|]. split; [exact V22|]. split; [exact V22|].
  exact (proj1 (C4_window_inclusive sample_settings (mk_time 22 0 0 0)
                  V8 V22 V22)).
Defined.


Lemma C6_manual_trigger_witness :
  post_queue (world_of [post_A; post_B]) = [post_A; post_B]
  /\ api_result calm_env (api_calls (world_of [post_A; post_B])) = None
  /\ fst (run_scheduler_endpoint calm_env sample_settings
            (world_of [post_A; post_B])) =
     Returned (StatusAndSize "Post sent from queue" (2 - 1)).
Proof.
  split; [reflexivity|]. split; [reflexivity|].
  exact (proj1 (proj2 (proj2 (proj2 (proj2
           (C6_manual_trigger calm_env sample_settings
              (world_of [post_A; post_B]))) post_A [post_B] eq_refl))
           eq_refl)).
Defined.


Lemma C8_exclusive_witness :
  let ops := [OpTryDequeue SchedulerLoop; OpPut 3%nat;
              OpTryDequeue ManualTrigger; OpTryDequeue ManualTrigger;
              OpTryDequeue SchedulerLoop] in
  NoDup ([1%nat; 2%nat] ++ puts_of ops)
  /\ NoDup (map snd (fst (run_ops ops [1%nat; 2%nat]))).
Proof.
  intros ops.
  assert (H : NoDup ([1%nat; 2%nat] ++ puts_of ops)).
  { cbn. repeat constructor; cbn; intuition discriminate. }
  split; [exact H|].
  exact (proj1 (proj1 (proj2 (proj2
           (C8_exclusive_dequeue ops [1%nat; 2%nat]))) H)).
Defined.

Lemma C9_hidden_failure_witness :
  post_queue (world_of [post_A; post_B]) = [post_A; post_B]
  /\ api_result failing_env (api_calls (world_of [post_A; post_B])) =
     Some "timeout"%string
  /\ fst (run_scheduler_endpoint failing_env sample_settings
            (world_of [post_A; post_B])) =
     Returned (StatusAndSize "Post sent from queue" 2).
Proof.
  split; [reflexivity|]. split; [reflexivity|].
  exact (proj1 (C9_manual_trigger_hides_failure failing_env sample_settings
                  (world_of [post_A; post_B]) post_A [post_B] "timeout"
                  eq_refl eq_refl)).
Defined.

Lemma C10_photo_witness :
  from_user_id photo_message = Some (ADMIN_ID sample_settings)
  /\ photo photo_message = Some ([ {| file_id := "small" |} ] ++
                                 [ {| file_id := "large" |} ])
  /\ post_queue (snd (handle_new_post calm_env sample_settings photo_message
                        (world_of [post_A]))) =
     [post_A; Photo "large" ""].
Proof.
  split; [reflexivity|]. split; [reflexivity|].
  exact (proj1 (C10_photo_takes_precedence calm_env sample_settings
                  photo_message (world_of [post_A])
                  [ {| file_id := "small" |} ] {| file_id := "large" |}
                  eq_refl eq_refl)).
Defined.

(** * Further properties of the code *)

(** ** Queue size *)

(** After enqueuing [xs] on a queue [q] and then performing [m] dequeue
    steps, the size is the number of items put in minus the number of steps,
    and never below zero; the steps returned an item exactly as many times as
    there were items to take. *)
Theorem queue_size_after_enqueues_and_dequeues {A}
    (q : Queue A) (xs : list A) (m : nat) :
  qsize (snd (dequeue_n m (enqueue_all q xs))) =
    (qsize q + List.length xs - m)%nat
  /\ List.length (filter (fun r => match r with Some _ => true | None => false end)
                    (fst (dequeue_n m (enqueue_all q xs)))) =
     Nat.min m (qsize q + List.length xs).
Proof.
  rewrite dequeue_n_spec, enqueue_all_app. cbn [fst snd]. unfold qsize.
  rewrite length_skipn, length_app. split; [reflexivity|].
  rewrite filter_app, length_app.
  assert (F1 : forall l : list A,
             filter (fun r => match r with Some _ => true | None => false end)
               (map Some l) = map Some l).
  { induction l as [|a l IH]; cbn; [reflexivity | now rewrite IH]. }
  assert (F2 : forall k,
             filter (fun r : option A =>
                       match r with Some _ => true | None => false end)
               (repeat None k) = []).
  { induction k as [|k IH]; cbn; [reflexivity | exact IH]. }
  rewrite F1, F2, length_map, length_firstn, length_app. cbn [List.length]. lia.
Qed.

(** ** The paths of the submission handler *)

Section HandlerPaths.
Variable env : Env.
Variable cfg : Settings.
Variable m : Message.
Variable w : World.

Lemma handle_senderless :
  from_user_id m = None ->
  handle_new_post env cfg m w = (Raised no_attribute_id, w).
Proof.
  unfold handle_new_post, from_user_id.
  destruct (from_user m); [discriminate | reflexivity].
Qed.

Lemma handle_unauthorized (uid : Z) :
  from_user_id m = Some uid ->
  uid <> ADMIN_ID cfg ->
  handle_new_post env cfg m w =
  (api_outcome env w,
   {| post_queue := post_queue w;
      trace := trace w ++ [Answer ReplyNotAllowed];
      api_calls := S (api_calls w);
      clock_reads := clock_reads w |}).
Proof.
  intros Hu H. unfold handle_new_post.
  destruct (from_user_id_Some m uid Hu) as (user & -> & <-).
  apply Z.eqb_neq in H. rewrite H. reflexivity.
Qed.

Lemma handle_supported post_data :
  from_user_id m = Some (ADMIN_ID cfg) ->
  post_data_of m = Some post_data ->
  handle_new_post env cfg m w =
  (api_outcome env w,
   {| post_queue := post_queue w ++ [post_data];
      trace := trace w ++ [QueuePut post_data;
                           Answer (ReplyQueued (S (qsize (post_queue w))))];
      api_calls := S (api_calls w);
      clock_reads := clock_reads w |}).
Proof.
  intros H Hp. unfold handle_new_post.
  destruct (from_user_id_Some m _ H) as (user & -> & ->).
  rewrite Z.eqb_refl, Hp. cbn [negb]. step_monad. tidy_trace.
  unfold api_outcome, qsize. rewrite length_app. cbn [List.length].
  replace (List.length (post_queue w) + 1)%nat
    with (S (List.length (post_queue w))) by lia.
  reflexivity.
Qed.

Lemma handle_unsupported :
  from_user_id m = Some (ADMIN_ID cfg) ->
  post_data_of m = None ->
  handle_new_post env cfg m w =
  (api_outcome env w,
   {| post_queue := post_queue w;
      trace := trace w ++ [Answer ReplyUnsupported];
      api_calls := S (api_calls w);
      clock_reads := clock_reads w |}).
Proof.
  intros H Hp. unfold handle_new_post.
  destruct (from_user_id_Some m _ H) as (user & -> & ->).
  rewrite Z.eqb_refl, Hp. reflexivity.
Qed.
End HandlerPaths.

Lemma post_data_of_text (m : Message) (a : Ascii.ascii) (r : string) :
  truthy_list (photo m) = false ->
  text m = Some (String a r) ->
  post_data_of m = Some (Text (String a r)).
Proof.
  unfold post_data_of, truthy_list. intros Hp Ht. rewrite Ht.
  destruct (photo m) as [[|p ps]|]; try discriminate; reflexivity.
Qed.

(** A sender other than the operator is turned away whatever the message
    carries: the queue is left as it was and the handler's only action is the
    answer that they may not submit posts. *)
Theorem unauthorized_sender_never_queued
    env cfg (m : Message) (w : World) (uid : Z) :
  from_user_id m = Some uid ->
  uid <> ADMIN_ID cfg ->
  let w' := snd (handle_new_post env cfg m w) in
  post_queue w' = post_queue w
  /\ new_events w w' = [Answer ReplyNotAllowed].
Proof.
  intros Hu H w'. subst w'. rewrite (handle_unauthorized env cfg m w uid Hu H).
  cbn [snd post_queue]. erewrite new_events_app by reflexivity.
  split; reflexivity.
Qed.

(** A message of the operator without photo (none, or an empty list of
    sizes) and with a non-empty text is queued as a text post with that very
    text, behind the posts already waiting, and the acknowledgement reports
    the size of the queue with the new post in it. *)
Theorem text_submission_queued
    env cfg (m : Message) (w : World) (a : Ascii.ascii) (r : string) :
  from_user_id m = Some (ADMIN_ID cfg) ->
  truthy_list (photo m) = false ->
  text m = Some (String a r) ->
  let w' := snd (handle_new_post env cfg m w) in
  post_queue w' = post_queue w ++ [Text (String a r)]
  /\ new_events w w' =
     [QueuePut (Text (String a r));
      Answer (ReplyQueued (qsize (post_queue w')))].
Proof.
  intros H Hp Ht w'. subst w'.
  rewrite (handle_supported env cfg m w _ H (post_data_of_text m a r Hp Ht)).
  cbn [snd post_queue]. erewrite new_events_app by reflexivity.
  unfold qsize. rewrite length_app. cbn [List.length].
  replace (List.length (post_queue w) + 1)%nat
    with (S (List.length (post_queue w))) by lia.
  split; reflexivity.
Qed.

(** What the handler puts in the queue for a message. *)
Lemma handler_outcome env cfg (m : Message) (w : World) :
  let put_by_handler :=
    match from_user_id m with
    | Some uid =>
        if uid =? ADMIN_ID cfg
        then match post_data_of m with Some p => [p] | None => [] end
        else []
    | None => []
    end in
  let run := handle_new_post env cfg m w in
  post_queue (snd run) = post_queue w ++ put_by_handler
  /\ enqueued (new_events w (snd run)) = put_by_handler
  /\ fst run = match from_user_id m with
               | Some _ => api_outcome env w
               | None => Raised no_attribute_id
               end
  /\ List.length (answers (new_events w (snd run))) =
     (match from_user_id m with Some _ => 1 | None => 0 end)%nat
  /\ dequeued (new_events w (snd run)) = []
  /\ published (new_events w (snd run)) = []
  /\ sleeps (new_events w (snd run)) = []
  /\ api_calls (snd run) =
     (api_calls w + List.length (answers (new_events w (snd run))))%nat
  /\ clock_reads (snd run) = clock_reads w.
Proof.
  intros put_by_handler run. subst run put_by_handler.
  destruct (from_user_id m) as [uid|] eqn:Hu.
  - destruct (Z.eqb_spec uid (ADMIN_ID cfg)) as [H|H].
    + subst uid. destruct (post_data_of m) as [p|] eqn:Hp.
      * rewrite (handle_supported env cfg m w p Hu Hp).
        cbn [fst snd post_queue api_calls clock_reads].
        erewrite new_events_app by reflexivity.
        repeat split. cbn. lia.
      * rewrite (handle_unsupported env cfg m w Hu Hp).
        cbn [fst snd post_queue api_calls clock_reads].
        erewrite new_events_app by reflexivity.
        cbn. rewrite app_nil_r. repeat split. lia.
    + rewrite (handle_unauthorized env cfg m w uid Hu H).
      cbn [fst snd post_queue api_calls clock_reads].
      erewrite new_events_app by reflexivity.
      cbn. rewrite app_nil_r. repeat split. lia.
  - rewrite (handle_senderless env cfg m w Hu). cbn [fst snd].
    rewrite new_events_self. cbn. rewrite app_nil_r. repeat split. lia.
Qed.

(** Whatever the message and the sender, the handler touches the queue by at
    most one [put] at the tail: the posts already waiting stay, in order, in
    front.  It puts a post exactly when the sender is the operator and the
    message has a supported content.  It never takes a post, never publishes
    to the channel, never sleeps and never reads the clock.  Its only Bot API
    calls are its answers to the sender: one when the message has a sender,
    none when it has not. *)
Theorem handler_only_appends env cfg (m : Message) (w : World) :
  let w' := snd (handle_new_post env cfg m w) in
  let evs := new_events w w' in
  post_queue w' = post_queue w ++ enqueued evs
  /\ enqueued evs =
     match from_user_id m with
     | Some uid =>
         if uid =? ADMIN_ID cfg
         then match post_data_of m with Some p => [p] | None => [] end
         else []
     | None => []
     end
  /\ dequeued evs = [] /\ published evs = [] /\ sleeps evs = []
  /\ List.length (answers evs) =
     (match from_user_id m with Some _ => 1 | None => 0 end)%nat
  /\ api_calls w' = (api_calls w + List.length (answers evs))%nat
  /\ clock_reads w' = clock_reads w.
Proof.
  intros w' evs. subst evs w'.
  destruct (handler_outcome env cfg m w)
    as (H1 & H2 & _ & H5 & H6 & H7 & H8 & H9 & H10).
  rewrite H2 at 1. repeat split; assumption.
Qed.

(** The handler raises in two cases only: on a message without sender, with
    the attribute error of reading its identifier, before it has done
    anything; and when its answer to the sender fails, with the exception of
    that call.  The queue it leaves is the same whether the answer fails or
    not, so a post whose acknowledgement failed stays queued. *)
Theorem handler_fails_only_with_its_answer env cfg (m : Message) (w : World) :
  match from_user_id m with
  | None => handle_new_post env cfg m w = (Raised no_attribute_id, w)
  | Some _ =>
      match api_result env (api_calls w) with
      | None => fst (handle_new_post env cfg m w) = Returned tt
      | Some e => fst (handle_new_post env cfg m w) = Raised e
      end
  end
  /\ forall env',
       post_queue (snd (handle_new_post env' cfg m w)) =
       post_queue (snd (handle_new_post env cfg m w)).
Proof.
  split.
  - destruct (from_user_id m) as [uid|] eqn:Hu.
    + destruct (handler_outcome env cfg m w) as (_ & _ & H3 & _).
      rewrite Hu in H3. unfold api_outcome in H3.
      destruct (api_result env (api_calls w)); exact H3.
    + apply handle_senderless. exact Hu.
  - intros env'.
    destruct (handler_outcome env cfg m w) as (-> & _).
    destruct (handler_outcome env' cfg m w) as (-> & _).
    reflexivity.
Qed.

(** ** The dispatcher, on success and in general *)

(** When the publish call succeeds, the dispatcher leaves the queue alone
    and does not sleep: it has made the one call that carries the post and
    logged the delivery. *)
Theorem successful_delivery_consumes_item
    env cfg (item : PostItem) (w : World) :
  api_result env (api_calls w) = None ->
  let w' := snd (send_post_to_channel env cfg item w) in
  fst (send_post_to_channel env cfg item w) = Returned tt
  /\ post_queue w' = post_queue w
  /\ new_events w w' = [publish_event cfg item;
                        LogInfo (PostSentToChannel (CHANNEL_ID cfg))]
  /\ sleeps (new_events w w') = []
  /\ api_calls w' = S (api_calls w).
Proof.
  intros H w'. subst w'. rewrite (send_post_succeeds env cfg item w H).
  cbn [fst snd post_queue api_calls].
  erewrite new_events_app by reflexivity.
  destruct item; repeat split.
Qed.

(** Whatever the Bot API does, the dispatcher returns normally, makes exactly
    one publish call, which carries exactly the post it was given, and
    accounts for the post: either the delivery is logged and the queue is
    untouched, or the post, and nothing else, is appended to the queue. *)
Theorem dispatcher_never_raises_never_drops
    env cfg (item : PostItem) (w : World) :
  let w' := snd (send_post_to_channel env cfg item w) in
  let evs := new_events w w' in
  fst (send_post_to_channel env cfg item w) = Returned tt
  /\ published evs = [item]
  /\ api_calls w' = S (api_calls w)
  /\ dequeued evs = []
  /\ post_queue w' = post_queue w ++ enqueued evs
  /\ ((sent_count evs = 1%nat /\ enqueued evs = [])
      \/ (sent_count evs = 0%nat /\ enqueued evs = [item])).
Proof.
  intros w' evs. subst evs w'.
  destruct (api_result env (api_calls w)) as [e|] eqn:H.
  - rewrite (send_post_fails env cfg item w e H).
    cbn [fst snd post_queue api_calls].
    erewrite new_events_app by reflexivity.
    destruct item; repeat split; right; split; reflexivity.
  - rewrite (send_post_succeeds env cfg item w H).
    cbn [fst snd post_queue api_calls].
    erewrite new_events_app by reflexivity.
    destruct item; cbn; rewrite app_nil_r; repeat split; left; split;
      reflexivity.
Qed.

(** ** The manual trigger never answers with an error *)

(** Whatever the Bot API does, the manual trigger returns one of its two
    status answers and never the 500 response; its error handler logs
    nothing.  The size it reports is the size of the queue it leaves, and
    that queue is never longer than the one it found. *)
Theorem manual_trigger_never_answers_500 env cfg (w : World) :
  let r := fst (run_scheduler_endpoint env cfg w) in
  let w' := snd (run_scheduler_endpoint env cfg w) in
  (r = Returned (StatusOnly "Queue is empty")
   \/ r = Returned (StatusAndSize "Post sent from queue"
                      (qsize (post_queue w'))))
  /\ (forall e, r <> Returned (Response500 e))
  /\ (forall e, ~ In (LogError (ErrorInEndpoint e)) (new_events w w'))
  /\ (qsize (post_queue w') <= qsize (post_queue w))%nat.
Proof.
  intros r w'. subst r w'.
  destruct (post_queue w) as [|item rest] eqn:Hq.
  - rewrite (endpoint_on_empty env cfg w Hq). cbn [fst snd post_queue].
    erewrite new_events_app by reflexivity.
    repeat split; [now left | discriminate | | unfold qsize; cbn [List.length]; lia].
    intros e [H|[]]. discriminate.
  - destruct (api_result env (api_calls w)) as [e|] eqn:Hapi.
    + rewrite (endpoint_delivery_fails env cfg w item rest e Hq Hapi).
      cbn [fst snd post_queue]. erewrite new_events_app by reflexivity.
      repeat split; [now right | discriminate | | ].
      * intros e0 H. cbn in H.
        destruct item; cbn in H; intuition discriminate.
      * unfold qsize. rewrite length_app. cbn [List.length]. lia.
    + rewrite (endpoint_delivery_ok env cfg w item rest Hq Hapi).
      cbn [fst snd post_queue]. erewrite new_events_app by reflexivity.
      repeat split; [now right | discriminate | | unfold qsize; cbn [List.length]; lia].
      intros e0 H. cbn in H.
      destruct item; cbn in H; intuition discriminate.
Qed.

(** ** The scheduler loop over many iterations *)

Lemma new_events_trans (w w1 w' : World) :
  trace w1 = trace w ++ new_events w w1 ->
  trace w' = trace w1 ++ new_events w1 w' ->
  trace w' = trace w ++ new_events w w'
  /\ new_events w w' = new_events w w1 ++ new_events w1 w'.
Proof.
  intros H1 H2.
  assert (E : trace w' = trace w ++ (new_events w w1 ++ new_events w1 w'))
    by (rewrite app_assoc, <- H1; exact H2).
  rewrite (new_events_app w w' _ E). split; [exact E | reflexivity].
Qed.

Lemma iteration_extends env cfg (w : World) :
  let w1 := snd (scheduler_iteration env cfg w) in
  trace w1 = trace w ++ new_events w w1.
Proof.
  intros w1. subst w1.
  destruct (now_result env (clock_reads w)) as [e|now] eqn:Hnow.
  - rewrite (iteration_clock_error env cfg w e Hnow). cbn [snd trace].
    now erewrite new_events_app by reflexivity.
  - destruct (isWithinWindow cfg now && negb (empty (post_queue w))) eqn:Hgo.
    + apply andb_true_iff in Hgo. destruct Hgo as [Hin Hne].
      destruct (post_queue w) as [|item rest] eqn:Hq; [discriminate|].
      destruct (api_result env (api_calls w)) as [e|] eqn:Hapi.
      * rewrite (iteration_dispatch_fail env cfg w now item rest e) by auto.
        cbn [snd trace]. now erewrite new_events_app by reflexivity.
      * rewrite (iteration_dispatch_ok env cfg w now item rest) by auto.
        cbn [snd trace]. now erewrite new_events_app by reflexivity.
    + rewrite (iteration_idle env cfg w now Hnow Hgo). cbn [snd trace].
      now erewrite new_events_app by reflexivity.
Qed.

Lemma scheduler_extends env cfg (n : nat) (w : World) :
  let w' := snd (scheduler env cfg n w) in
  trace w' = trace w ++ new_events w w'.
Proof.
  revert w. induction n as [|n IH]; intros w w'; subst w'.
  - cbn [scheduler snd]. now rewrite new_events_self, app_nil_r.
  - rewrite scheduler_unroll.
    apply (new_events_trans w (snd (scheduler_iteration env cfg w))).
    + apply iteration_extends.
    + apply IH.
Qed.

(** The events of [S n] iterations: those of the first, then those of the
    [n] that follow. *)
Lemma scheduler_events_unroll env cfg (n : nat) (w : World) :
  let w1 := snd (scheduler_iteration env cfg w) in
  new_events w (snd (scheduler env cfg (S n) w)) =
  new_events w w1 ++ new_events w1 (snd (scheduler env cfg n w1)).
Proof.
  intros w1. rewrite scheduler_unroll. fold w1.
  apply (new_events_trans w w1).
  - apply iteration_extends.
  - apply scheduler_extends.
Qed.

Lemma sleeps_app (a b : list Event) : sleeps (a ++ b) = sleeps a ++ sleeps b.
Proof. apply flat_map_app. Qed.

Lemma dequeued_app (a b : list Event) :
  dequeued (a ++ b) = dequeued a ++ dequeued b.
Proof. apply flat_map_app. Qed.

Lemma enqueued_app (a b : list Event) :
  enqueued (a ++ b) = enqueued a ++ enqueued b.
Proof. apply flat_map_app. Qed.

Lemma published_app (a b : list Event) :
  published (a ++ b) = published a ++ published b.
Proof. apply flat_map_app. Qed.

Lemma sent_count_app (a b : list Event) :
  sent_count (a ++ b) = (sent_count a + sent_count b)%nat.
Proof. unfold sent_count. now rewrite flat_map_app, length_app. Qed.

(** What one iteration does to the queue, whatever the environment. *)
Lemma iteration_flow env cfg (w : World) :
  let w1 := snd (scheduler_iteration env cfg w) in
  let evs := new_events w w1 in
  dequeued evs ++ post_queue w1 = post_queue w ++ enqueued evs
  /\ (qsize (post_queue w1) + sent_count evs)%nat = qsize (post_queue w)
  /\ published evs = dequeued evs.
Proof.
  intros w1 evs. subst evs w1.
  destruct (now_result env (clock_reads w)) as [e|now] eqn:Hnow.
  - rewrite (iteration_clock_error env cfg w e Hnow). cbn [snd post_queue].
    erewrite new_events_app by reflexivity. cbn.
    rewrite app_nil_r. repeat split. lia.
  - destruct (isWithinWindow cfg now && negb (empty (post_queue w))) eqn:Hgo.
    + apply andb_true_iff in Hgo. destruct Hgo as [Hin Hne].
      destruct (post_queue w) as [|item rest] eqn:Hq; [discriminate|].
      destruct (api_result env (api_calls w)) as [e|] eqn:Hapi.
      * rewrite (iteration_dispatch_fail env cfg w now item rest e) by auto.
        cbn [snd post_queue]. erewrite new_events_app by reflexivity.
        unfold qsize. rewrite length_app.
        destruct item; cbn; repeat split; lia.
      * rewrite (iteration_dispatch_ok env cfg w now item rest) by auto.
        cbn [snd post_queue]. erewrite new_events_app by reflexivity.
        unfold qsize.
        destruct item; cbn; rewrite ?app_nil_r; repeat split; lia.
    + rewrite (iteration_idle env cfg w now Hnow Hgo). cbn [snd post_queue].
      erewrite new_events_app by reflexivity. cbn.
      rewrite app_nil_r. repeat split. lia.
Qed.

(** Over any number of iterations and in any environment, the scheduler
    neither loses nor invents a post: what it took from the queue followed by
    what is left is what was there followed by what it put back; the number
    of posts waiting plus the number of deliveries logged stays the number
    of posts that were waiting, so the queue never grows; and every publish
    call carries a post just taken from the queue, in the order taken. *)
Theorem scheduler_conserves_posts env cfg (n : nat) (w : World) :
  let w' := snd (scheduler env cfg n w) in
  let evs := new_events w w' in
  dequeued evs ++ post_queue w' = post_queue w ++ enqueued evs
  /\ (qsize (post_queue w') + sent_count evs)%nat = qsize (post_queue w)
  /\ published evs = dequeued evs.
Proof.
  revert w. induction n as [|n IH]; intros w w' evs; subst evs w'.
  - cbn [scheduler snd]. rewrite new_events_self. cbn.
    rewrite app_nil_r. repeat split. lia.
  - rewrite scheduler_events_unroll. rewrite scheduler_unroll.
    destruct (iteration_flow env cfg w) as (F1 & F2 & F3).
    destruct (IH (snd (scheduler_iteration env cfg w))) as (G1 & G2 & G3).
    rewrite dequeued_app, enqueued_app, published_app, sent_count_app.
    repeat split.
    + rewrite <- app_assoc, G1, !app_assoc. now rewrite F1.
    + lia.
    + now rewrite F3, G3.
Qed.

(** One iteration, by the state of the window and of the Bot API. *)

Lemma iteration_when_closed env cfg (w : World) :
  match now_result env (clock_reads w) with
  | inr t => isWithinWindow cfg t = false
  | inl _ => True
  end ->
  let w1 := snd (scheduler_iteration env cfg w) in
  let evs := new_events w w1 in
  post_queue w1 = post_queue w
  /\ api_calls w1 = api_calls w
  /\ published evs = [] /\ dequeued evs = []
  /\ exists s, sleeps evs = [s] /\ (s = 30 \/ s = 60).
Proof.
  intros Hk w1 evs. subst evs w1.
  destruct (now_result env (clock_reads w)) as [e|now] eqn:Hnow.
  - rewrite (iteration_clock_error env cfg w e Hnow).
    cbn [snd post_queue api_calls].
    erewrite new_events_app by reflexivity.
    repeat split. exists 60. split; [reflexivity | now right].
  - assert (Hgo : isWithinWindow cfg now && negb (empty (post_queue w))
                  = false) by (rewrite Hk; reflexivity).
    rewrite (iteration_idle env cfg w now Hnow Hgo).
    cbn [snd post_queue api_calls].
    erewrite new_events_app by reflexivity.
    repeat split. exists 30. split; [reflexivity | now left].
Qed.

Lemma iteration_when_open_ok env cfg (w : World) (now : time) :
  now_result env (clock_reads w) = inr now ->
  isWithinWindow cfg now = true ->
  api_result env (api_calls w) = None ->
  let w1 := snd (scheduler_iteration env cfg w) in
  let evs := new_events w w1 in
  published evs = firstn 1 (post_queue w)
  /\ post_queue w1 = skipn 1 (post_queue w)
  /\ sleeps evs = repeat 30 (1 - qsize (post_queue w))
  /\ sent_count evs = Nat.min 1 (qsize (post_queue w)).
Proof.
  intros Hnow Hin Hapi w1 evs. subst evs w1.
  destruct (post_queue w) as [|item rest] eqn:Hq.
  - assert (Hgo : isWithinWindow cfg now && negb (empty (post_queue w))
                  = false) by (rewrite Hq, Hin; reflexivity).
    rewrite (iteration_idle env cfg w now Hnow Hgo).
    cbn [snd post_queue]. erewrite new_events_app by reflexivity.
    rewrite Hq. repeat split.
  - rewrite (iteration_dispatch_ok env cfg w now item rest Hnow Hin Hq Hapi).
    cbn [snd post_queue]. erewrite new_events_app by reflexivity.
    destruct item; repeat split.
Qed.

Lemma iteration_when_open_failing env cfg (w : World) (now : time) e :
  now_result env (clock_reads w) = inr now ->
  isWithinWindow cfg now = true ->
  api_result env (api_calls w) = Some e ->
  let w1 := snd (scheduler_iteration env cfg w) in
  let evs := new_events w w1 in
  Permutation (post_queue w1) (post_queue w)
  /\ sent_count evs = 0%nat
  /\ (post_queue w <> [] ->
      post_queue w1 <> []
      /\ sleeps evs = [5]
      /\ List.length (published evs) = 1%nat
      /\ enqueued evs = dequeued evs).
Proof.
  intros Hnow Hin Hapi w1 evs. subst evs w1.
  destruct (post_queue w) as [|item rest] eqn:Hq.
  - assert (Hgo : isWithinWindow cfg now && negb (empty (post_queue w))
                  = false) by (rewrite Hq, Hin; reflexivity).
    rewrite (iteration_idle env cfg w now Hnow Hgo).
    cbn [snd post_queue]. erewrite new_events_app by reflexivity.
    rewrite Hq. repeat split; try congruence. apply Permutation_refl.
  - rewrite (iteration_dispatch_fail env cfg w now item rest e Hnow Hin Hq
               Hapi).
    cbn [snd post_queue]. erewrite new_events_app by reflexivity.
    split; [|split].
    + apply Permutation_sym, Permutation_cons_append.
    + destruct item; reflexivity.
    + intros _. split.
      * intros H. apply app_eq_nil in H. destruct H. discriminate.
      * destruct item; repeat split.
Qed.

(** While every reading of the clock falls outside the window (or fails),
    the loop publishes nothing, however long it runs and however full the
    queue: the queue is untouched, no Bot API call is made, and each
    iteration sleeps once, 30 (or 60 after a failed reading). *)
Theorem outside_window_nothing_published env cfg (n : nat) (w : World) :
  (forall k, match now_result env k with
             | inr t => isWithinWindow cfg t = false
             | inl _ => True
             end) ->
  let w' := snd (scheduler env cfg n w) in
  let evs := new_events w w' in
  post_queue w' = post_queue w
  /\ api_calls w' = api_calls w
  /\ published evs = [] /\ dequeued evs = []
  /\ List.length (sleeps evs) = n
  /\ Forall (fun s => s = 30 \/ s = 60) (sleeps evs).
Proof.
  intros Hclosed. revert w.
  induction n as [|n IH]; intros w w' evs; subst evs w'.
  - cbn [scheduler snd]. rewrite new_events_self. cbn. repeat split.
    constructor.
  - rewrite scheduler_events_unroll. rewrite scheduler_unroll.
    destruct (iteration_when_closed env cfg w (Hclosed _))
      as (F1 & F2 & F3 & F4 & s & F5 & F6).
    destruct (IH (snd (scheduler_iteration env cfg w)))
      as (G1 & G2 & G3 & G4 & G5 & G6).
    rewrite published_app, dequeued_app, sleeps_app, length_app.
    rewrite G1, G2, G3, G4, G5, F1, F2, F3, F4, F5.
    repeat split. cbn [app]. constructor; assumption.
Qed.

(** A window whose end precedes its start is never open: no time of day is
    within it, so with such a configuration the loop never publishes
    anything and the queue stays as it is. *)
Theorem inverted_window_never_opens env cfg (n : nat) (w : World) :
  valid_time (START_TIME cfg) -> valid_time (END_TIME cfg) ->
  micros (END_TIME cfg) < micros (START_TIME cfg) ->
  (forall k t, now_result env k = inr t -> valid_time t) ->
  (forall now, valid_time now -> isWithinWindow cfg now = false)
  /\ published (new_events w (snd (scheduler env cfg n w))) = []
  /\ post_queue (snd (scheduler env cfg n w)) = post_queue w.
Proof.
  intros Hs He Hinv Hclock.
  assert (P : forall now, valid_time now -> isWithinWindow cfg now = false).
  { intros now Hn. unfold isWithinWindow.
    destruct (time_le (START_TIME cfg) now) eqn:H1; [|reflexivity].
    destruct (time_le now (END_TIME cfg)) eqn:H2; [|reflexivity].
    apply (time_le_micros _ _ Hs Hn) in H1.
    apply (time_le_micros _ _ Hn He) in H2. lia. }
  split; [exact P|].
  assert (Hclosed : forall k, match now_result env k with
                              | inr t => isWithinWindow cfg t = false
                              | inl _ => True
                              end).
  { intros k. destruct (now_result env k) as [e|t] eqn:Hk; [exact I|].
    apply P. exact (Hclock k t Hk). }
  destruct (outside_window_nothing_published env cfg n w Hclosed)
    as (Q1 & _ & Q3 & _).
  split; [exact Q3 | exact Q1].
Qed.

(** While the window is open and the Bot API works, the loop sends the
    waiting posts one per iteration, in queue order, each once, with no sleep
    between them: after [n] iterations it has published the first [n] posts
    and left the others, and its only sleeps are the 30 of the iterations
    that found the queue empty. *)
Theorem open_window_drains_in_order env cfg (n : nat) (w : World) :
  (forall k, exists t, now_result env k = inr t
                       /\ isWithinWindow cfg t = true) ->
  (forall k, api_result env k = None) ->
  let w' := snd (scheduler env cfg n w) in
  let evs := new_events w w' in
  published evs = firstn n (post_queue w)
  /\ post_queue w' = skipn n (post_queue w)
  /\ sleeps evs = repeat 30 (n - qsize (post_queue w))
  /\ sent_count evs = Nat.min n (qsize (post_queue w)).
Proof.
  intros Hopen Hok. revert w.
  induction n as [|n IH]; intros w w' evs; subst evs w'.
  - cbn [scheduler snd]. rewrite new_events_self. repeat split.
  - rewrite scheduler_events_unroll. rewrite scheduler_unroll.
    destruct (Hopen (clock_reads w)) as (now & Hnow & Hin).
    destruct (iteration_when_open_ok env cfg w now Hnow Hin (Hok _))
      as (F1 & F2 & F3 & F4).
    destruct (IH (snd (scheduler_iteration env cfg w)))
      as (G1 & G2 & G3 & G4).
    rewrite published_app, sleeps_app, sent_count_app.
    rewrite G1, G2, G3, G4, F1, F2, F3, F4.
    unfold qsize. destruct (post_queue w) as [|item rest].
    + cbn [skipn firstn List.length app]. rewrite firstn_nil, skipn_nil.
      cbn. rewrite Nat.sub_0_r, Nat.min_0_r. repeat split.
    + cbn. repeat split.
Qed.

(** While the window is open and every publish call fails, no post ever
    leaves: after any number of iterations the queue holds the same posts
    (in rotated order) and no delivery is logged.  If there is a post at
    all, every iteration makes one attempt, backs off 5 and puts the post
    back. *)
Theorem failing_channel_retries_forever env cfg (n : nat) (w : World) :
  (forall k, exists t, now_result env k = inr t
                       /\ isWithinWindow cfg t = true) ->
  (forall k, exists e, api_result env k = Some e) ->
  let w' := snd (scheduler env cfg n w) in
  let evs := new_events w w' in
  Permutation (post_queue w') (post_queue w)
  /\ sent_count evs = 0%nat
  /\ (post_queue w <> [] ->
      sleeps evs = repeat 5 n
      /\ List.length (published evs) = n
      /\ enqueued evs = dequeued evs).
Proof.
  intros Hopen Hfail. revert w.
  induction n as [|n IH]; intros w w' evs; subst evs w'.
  - cbn [scheduler snd]. rewrite new_events_self. repeat split.
    apply Permutation_refl.
  - rewrite scheduler_events_unroll. rewrite scheduler_unroll.
    destruct (Hopen (clock_reads w)) as (now & Hnow & Hin).
    destruct (Hfail (api_calls w)) as (e & Hapi).
    destruct (iteration_when_open_failing env cfg w now e Hnow Hin Hapi)
      as (F1 & F2 & F3).
    destruct (IH (snd (scheduler_iteration env cfg w))) as (G1 & G2 & G3).
    rewrite published_app, sleeps_app, sent_count_app, enqueued_app,
      dequeued_app, length_app, G2, F2.
    split; [|split].
    + exact (Permutation_trans G1 F1).
    + reflexivity.
    + intros Hne. destruct (F3 Hne) as (T0 & T1 & T2 & T3).
      destruct (G3 T0) as (S1 & S2 & S3).
      rewrite S1, S2, S3, T1, T2, T3. repeat split.
Qed.

(** ** From submission to publication *)

(** When the operator submits a supported message and the manual trigger is
    then called and its publish call succeeds, the trigger publishes the head
    of the queue as the submission left it and reports the number of posts
    still waiting.  On a queue that was empty, what is published is the post
    built from the submitted message, and the queue is empty again. *)
Theorem submission_then_trigger
    env cfg (m : Message) (w : World) (p x : PostItem)
    (rest : Queue PostItem) :
  from_user_id m = Some (ADMIN_ID cfg) ->
  post_data_of m = Some p ->
  post_queue w ++ [p] = x :: rest ->
  api_result env (S (api_calls w)) = None ->
  let w1 := snd (handle_new_post env cfg m w) in
  let w2 := snd (run_scheduler_endpoint env cfg w1) in
  fst (run_scheduler_endpoint env cfg w1) =
    Returned (StatusAndSize "Post sent from queue" (qsize rest))
  /\ new_events w1 w2 = [QueueGet x; publish_event cfg x;
                         LogInfo (PostSentToChannel (CHANNEL_ID cfg));
                         LogInfo EndpointPostSent]
  /\ post_queue w2 = rest
  /\ (post_queue w = [] -> x = p /\ post_queue w2 = []).
Proof.
  intros Hadm Hp Hq Hapi w1 w2. subst w2 w1.
  rewrite (handle_supported env cfg m w p Hadm Hp). cbn [snd].
  match goal with
  | |- context [run_scheduler_endpoint env cfg ?W] => set (w1 := W)
  end.
  assert (Hq1 : post_queue w1 = x :: rest) by exact Hq.
  assert (Hapi1 : api_result env (api_calls w1) = None) by exact Hapi.
  rewrite (endpoint_delivery_ok env cfg w1 x rest Hq1 Hapi1).
  cbn [fst snd post_queue]. erewrite new_events_app by reflexivity.
  repeat split.
  - rewrite H in Hq. cbn in Hq. congruence.
  - rewrite H in Hq. cbn in Hq. congruence.
Qed.

(** ** The webhook endpoint *)

(** The webhook always answers, with 200 or with 500.  A body that cannot be
    read as an update is answered 500 with the error's text, the error is
    logged and the bot's state is untouched; an update that carries no
    message is answered 200 and changes nothing; a message update runs the
    submission handler and is answered 200, unless the handler raised: on a
    message without sender the answer is 500 with the attribute error and
    the bot's state is untouched, and when the handler's answer to the
    sender failed the answer is 500 with that error while what the handler
    did stays done.  Every 500 is logged once. *)
Theorem webhook_always_answers env cfg (request : Request) (s : Server) :
  let r := fst (telegram_webhook env cfg request s) in
  let s' := snd (telegram_webhook env cfg request s) in
  match request with
  | Malformed e =>
      r = Returned (Response 500 false (Some e))
      /\ world s' = world s
      /\ web_log s' = web_log s ++ [ErrorProcessingWebhook e]
  | WellFormed OtherUpdate =>
      r = Returned (Response 200 true None)
      /\ world s' = world s /\ web_log s' = web_log s
  | WellFormed (MessageUpdate m) =>
      world s' = snd (handle_new_post env cfg m (world s))
      /\ match from_user_id m with
         | None =>
             r = Returned (Response 500 false (Some no_attribute_id))
             /\ world s' = world s
             /\ web_log s' =
                web_log s ++ [ErrorProcessingWebhook no_attribute_id]
         | Some _ =>
             match api_result env (api_calls (world s)) with
             | None => r = Returned (Response 200 true None)
                       /\ web_log s' = web_log s
             | Some e =>
                 r = Returned (Response 500 false (Some e))
                 /\ web_log s' = web_log s ++ [ErrorProcessingWebhook e]
             end
         end
  end.
Proof.
  intros r s'. subst r s'. destruct request as [e|[m|]].
  - repeat split.
  - unfold telegram_webhook, feed_update.
    destruct (handler_outcome env cfg m (world s)) as (_ & _ & Hr & _).
    destruct (from_user_id m) as [uid|] eqn:Hu.
    + unfold api_outcome in Hr.
      destruct (handle_new_post env cfg m (world s)) as [r w'].
      cbn [fst snd] in *.
      destruct (api_result env (api_calls (world s))) as [e|]; subst r;
        repeat split.
    + rewrite (handle_senderless env cfg m (world s) Hu). repeat split.
  - repeat split.
Qed.

Lemma webhook_supported_message
    env cfg (m : Message) (s : Server) (p : PostItem) :
  from_user_id m = Some (ADMIN_ID cfg) ->
  post_data_of m = Some p ->
  telegram_webhook env cfg (WellFormed (MessageUpdate m)) s =
  let w' :=
    {| post_queue := post_queue (world s) ++ [p];
       trace := trace (world s) ++
                [QueuePut p;
                 Answer (ReplyQueued (S (qsize (post_queue (world s)))))];
       api_calls := S (api_calls (world s));
       clock_reads := clock_reads (world s) |} in
  match api_result env (api_calls (world s)) with
  | None =>
      (Returned (Response 200 true None),
       {| world := w'; web_log := web_log s |})
  | Some e =>
      (Returned (Response 500 false (Some e)),
       {| world := w'; web_log := web_log s ++ [ErrorProcessingWebhook e] |})
  end.
Proof.
  intros Hadm Hp. unfold telegram_webhook, feed_update.
  rewrite (handle_supported env cfg m (world s) p Hadm Hp).
  unfold api_outcome.
  destruct (api_result env (api_calls (world s))); reflexivity.
Qed.

(** A submission of the operator whose acknowledgement fails is answered 500
    although the post is already in the queue; when the same update is
    delivered again and goes through, it is answered 200 and the post is in
    the queue twice. *)
Theorem webhook_error_after_queueing
    env cfg (m : Message) (s : Server) (p : PostItem) (e : PyException) :
  from_user_id m = Some (ADMIN_ID cfg) ->
  post_data_of m = Some p ->
  api_result env (api_calls (world s)) = Some e ->
  api_result env (S (api_calls (world s))) = None ->
  let request := WellFormed (MessageUpdate m) in
  let s1 := snd (telegram_webhook env cfg request s) in
  let s2 := snd (telegram_webhook env cfg request s1) in
  fst (telegram_webhook env cfg request s) =
    Returned (Response 500 false (Some e))
  /\ post_queue (world s1) = post_queue (world s) ++ [p]
  /\ fst (telegram_webhook env cfg request s1) =
     Returned (Response 200 true None)
  /\ post_queue (world s2) = post_queue (world s) ++ [p; p].
Proof.
  intros Hadm Hp He Hok request s1 s2. subst s2 s1 request.
  rewrite (webhook_supported_message env cfg m s p Hadm Hp).
  rewrite He. cbn zeta. cbn [fst snd].
  rewrite (webhook_supported_message env cfg m _ p Hadm Hp).
  cbn [world api_calls post_queue]. rewrite Hok.
  cbn [fst snd world post_queue]. rewrite <- app_assoc.
  repeat split.
Qed.

(** ** The further properties at concrete inputs *)

Lemma unauthorized_sender_witness :
  from_user_id intruder_message = Some 7
  /\ 7 <> ADMIN_ID sample_settings
  /\ post_queue (snd (handle_new_post calm_env sample_settings
                        intruder_message (world_of [post_A]))) = [post_A].
Proof.
  assert (H : 7 <> ADMIN_ID sample_settings) by discriminate.
  split; [reflexivity|]. split; [exact H|].
  exact (proj1 (unauthorized_sender_never_queued calm_env sample_settings
                  intruder_message (world_of [post_A]) 7 eq_refl H)).
Defined.

Lemma text_submission_witness :
  from_user_id text_message = Some (ADMIN_ID sample_settings)
  /\ truthy_list (photo text_message) = false
  /\ text text_message = Some "hello"%string
  /\ post_queue (snd (handle_new_post calm_env sample_settings text_message
                        (world_of [post_A]))) = [post_A; Text "hello"].
Proof.
  split; [reflexivity|]. split; [reflexivity|]. split; [reflexivity|].
  exact (proj1 (text_submission_queued calm_env sample_settings text_message
                  (world_of [post_A]) "h"%char "ello"%string
                  eq_refl eq_refl eq_refl)).
Defined.

Lemma successful_delivery_witness :
  api_result calm_env (api_calls (world_of [post_B])) = None
  /\ post_queue (snd (send_post_to_channel calm_env sample_settings post_A
                        (world_of [post_B]))) = [post_B].
Proof.
  split; [reflexivity|].
  exact (proj1 (proj2 (successful_delivery_consumes_item calm_env
                         sample_settings post_A (world_of [post_B])
                         eq_refl))).
Defined.

Lemma outside_window_witness :
  (forall k, match now_result night_env k with
             | inr t => isWithinWindow sample_settings t = false
             | inl _ => True
             end)
  /\ post_queue (snd (scheduler night_env sample_settings 5
                        (world_of [post_A; post_B]))) = [post_A; post_B].
Proof.
  assert (H : forall k, match now_result night_env k with
                        | inr t => isWithinWindow sample_settings t = false
                        | inl _ => True
                        end) by (intros k; reflexivity).
  split; [exact H|].
  exact (proj1 (outside_window_nothing_published night_env sample_settings 5
                  (world_of [post_A; post_B]) H)).
Defined.

Lemma inverted_window_witness :
  valid_time (START_TIME overnight_settings)
  /\ valid_time (END_TIME overnight_settings)
  /\ micros (END_TIME overnight_settings)
     < micros (START_TIME overnight_settings)
  /\ (forall k t, now_result calm_env k = inr t -> valid_time t)
  /\ post_queue (snd (scheduler calm_env overnight_settings 5
                        (world_of [post_A; post_B]))) = [post_A; post_B].
Proof.
  assert (V : forall h, 0 <= h < 24 -> valid_time (mk_time h 0 0 0)).
  { intros h Hh. unfold valid_time. cbn. lia. }
  assert (Vs : valid_time (START_TIME overnight_settings))
    by (apply V; lia).
  assert (Ve : valid_time (END_TIME overnight_settings))
    by (apply V; lia).
  assert (Hinv : micros (END_TIME overnight_settings)
                 < micros (START_TIME overnight_settings)) by reflexivity.
  assert (Hc : forall k t, now_result calm_env k = inr t -> valid_time t).
  { intros k t H. injection H as <-. apply V. lia. }
  split; [exact Vs|]. split; [exact Ve|]. split; [exact Hinv|].
  split; [exact Hc|].
  exact (proj2 (proj2 (inverted_window_never_opens calm_env
                         overnight_settings 5 (world_of [post_A; post_B])
                         Vs Ve Hinv Hc))).
Defined.

Lemma open_window_witness :
  (forall k, exists t, now_result calm_env k = inr t
                       /\ isWithinWindow sample_settings t = true)
  /\ (forall k, api_result calm_env k = None)
  /\ published (new_events (world_of [post_A; post_B])
                  (snd (scheduler calm_env sample_settings 5
                          (world_of [post_A; post_B])))) = [post_A; post_B].
Proof.
  assert (Ho : forall k, exists t, now_result calm_env k = inr t
                         /\ isWithinWindow sample_settings t = true).
  { intros k. exists (mk_time 12 0 0 0). split; reflexivity. }
  assert (Hk : forall k, api_result calm_env k = None)
    by (intros k; reflexivity).
  split; [exact Ho|]. split; [exact Hk|].
  exact (proj1 (open_window_drains_in_order calm_env sample_settings 5
                  (world_of [post_A; post_B]) Ho Hk)).
Defined.

Lemma failing_channel_witness :
  (forall k, exists t, now_result failing_env k = inr t
                       /\ isWithinWindow sample_settings t = true)
  /\ (forall k, exists e, api_result failing_env k = Some e)
  /\ Permutation
       (post_queue (snd (scheduler failing_env sample_settings 5
                           (world_of [post_A; post_B]))))
       [post_A; post_B].
Proof.
  assert (Ho : forall k, exists t, now_result failing_env k = inr t
                         /\ isWithinWindow sample_settings t = true).
  { intros k. exists (mk_time 12 0 0 0). split; reflexivity. }
  assert (Hf : forall k, exists e, api_result failing_env k = Some e).
  { intros k. exists "timeout"%string. reflexivity. }
  split; [exact Ho|]. split; [exact Hf|].
  exact (proj1 (failing_channel_retries_forever failing_env sample_settings 5
                  (world_of [post_A; post_B]) Ho Hf)).
Defined.

Lemma submission_then_trigger_witness :
  from_user_id text_message = Some (ADMIN_ID sample_settings)
  /\ post_data_of text_message = Some (Text "hello")
  /\ post_queue (world_of []) ++ [Text "hello"] = [Text "hello"]
  /\ api_result calm_env (S (api_calls (world_of []))) = None
  /\ fst (run_scheduler_endpoint calm_env sample_settings
            (snd (handle_new_post calm_env sample_settings text_message
                    (world_of [])))) =
     Returned (StatusAndSize "Post sent from queue" 0).
Proof.
  split; [reflexivity|]. split; [reflexivity|]. split; [reflexivity|].
  split; [reflexivity|].
  exact (proj1 (submission_then_trigger calm_env sample_settings text_message
                  (world_of []) (Text "hello") (Text "hello") []
                  eq_refl eq_refl eq_refl eq_refl)).
Defined.

Lemma webhook_error_witness :
  from_user_id text_message = Some (ADMIN_ID sample_settings)
  /\ post_data_of text_message = Some (Text "hello")
  /\ api_result hiccup_env (api_calls (world (server_of []))) =
     Some "timeout"%string
  /\ api_result hiccup_env (S (api_calls (world (server_of [])))) = None
  /\ post_queue
       (world (snd (telegram_webhook hiccup_env sample_settings
                      (WellFormed (MessageUpdate text_message))
                      (snd (telegram_webhook hiccup_env sample_settings
                              (WellFormed (MessageUpdate text_message))
                              (server_of [])))))) =
     [Text "hello"; Text "hello"].
Proof.
  split; [reflexivity|]. split; [reflexivity|]. split; [reflexivity|].
  split; [reflexivity|].
  exact (proj2 (proj2 (proj2
           (webhook_error_after_queueing hiccup_env sample_settings
              text_message (server_of []) (Text "hello") "timeout"
              eq_refl eq_refl eq_refl eq_refl)))).
Defined.
